(** * Colour transformations: a shallow embedding over the real numbers

    The Python sources [colour/computation/transformations.py] and
    [colour/models/rgb/transfer_functions/dcdm.py] compute on IEEE doubles.
    The embedding below reads every double as the real number it stands
    for and every arithmetic operator as the exact operation on [R]:
    rounding, signed zeros, infinities and NaN are outside the model.
    Where the Python code would divide by zero or raise a negative base to
    a fractional power, the statements below carry an explicit hypothesis
    that excludes the input, so that no result depends on the value Rocq
    gives to [x / 0].

    Three statements of the specification are decided by rounding itself:
    the exactness of the UCS round trip and the half-open hue range of the
    polar forms.  For these the lines concerned are given a second time
    on binary64 (Rocq's primitive floats, the IEEE doubles of the Python
    code), next to their real-number reading, and evaluated there. *)

From Stdlib Require Import Floats.
From Stdlib Require Import Reals Lra Psatz String.

Open Scope R_scope.

(** ** Linear algebra utility: 3x1 vectors and 3x3 matrices *)

(** A 3x1 [numpy.matrix] after [numpy.ravel]. *)
Definition vec3 : Type := (R * R * R)%type.

(** A 3x3 [numpy.matrix], as its three rows. *)
Definition mat3 : Type := (vec3 * vec3 * vec3)%type.

Definition dot (a b : vec3) : R :=
  let '(a0, a1, a2) := a in
  let '(b0, b1, b2) := b in
  a0 * b0 + a1 * b1 + a2 * b2.

(** [M * v] for a 3x3 matrix and a 3x1 matrix. *)
Definition mvmul (M : mat3) (v : vec3) : vec3 :=
  let '(r0, r1, r2) := M in (dot r0 v, dot r1 v, dot r2 v).

Definition col0 (M : mat3) : vec3 :=
  let '((a, _, _), (b, _, _), (c, _, _)) := M in (a, b, c).
Definition col1 (M : mat3) : vec3 :=
  let '((_, a, _), (_, b, _), (_, c, _)) := M in (a, b, c).
Definition col2 (M : mat3) : vec3 :=
  let '((_, _, a), (_, _, b), (_, _, c)) := M in (a, b, c).

(** [A * B] for two 3x3 matrices. *)
Definition mmul (A B : mat3) : mat3 :=
  let '(r0, r1, r2) := A in
  ((dot r0 (col0 B), dot r0 (col1 B), dot r0 (col2 B)),
   (dot r1 (col0 B), dot r1 (col1 B), dot r1 (col2 B)),
   (dot r2 (col0 B), dot r2 (col1 B), dot r2 (col2 B))).

Definition I3 : mat3 := ((1, 0, 0), (0, 1, 0), (0, 0, 1)).

(** [numpy.matrix(map(f, numpy.ravel(v))).reshape((3, 1))] *)
Definition vmap (f : R -> R) (v : vec3) : vec3 :=
  let '(a, b, c) := v in (f a, f b, f c).

(** ** Python's float operators on the real model *)

(** [x ** y] with a fractional exponent [y > 0]: the real power for a
    positive base, [0.0] for base [0.0].  A negative base gives NaN in
    numpy and has no counterpart here; every statement that goes through
    [fpow] keeps its base nonnegative. *)
Definition fpow (x y : R) : R :=
  if Rlt_dec 0 x then Rpower x y else 0.

(** [x == y] on floats. *)
Definition Reqb (x y : R) : bool :=
  if Req_dec_T x y then true else false.

(** [math.radians] *)
Definition radians (d : R) : R := d * PI / 180.

(** [math.atan2 (y, x)] on real arguments: the angle of the point
    [(x, y)], in the interval (-PI, PI].  The reals have one zero: where
    the C library tells [-0.0] from [0.0] (its result is PI or -PI for a
    negative zero [x] and a zero [y]), this reading gives the angle 0 at
    the origin. *)
Definition atan2 (y x : R) : R :=
  if Rlt_dec 0 x then atan (y / x)
  else if Rlt_dec x 0 then
         if Rle_dec 0 y then atan (y / x) + PI else atan (y / x) - PI
       else if Rlt_dec 0 y then PI / 2
            else if Rlt_dec y 0 then - (PI / 2)
                 else 0.

(** ** colour.computation.lightness *)

Module lightness.

(** Modelled from the spec: the module [colour.computation.lightness] is
    not among the sources; the spec gives the threshold CIE "E" as the
    cube of 6/29. *)
Definition CIE_E : R := (6 / 29) ^ 3.

(** Modelled from the spec: the module [colour.computation.lightness] is
    not among the sources; the spec gives the linear-segment slope CIE "K"
    as 24389/27. *)
Definition CIE_K : R := 24389 / 27.

End lightness.

Import lightness.

(** ** colour.computation.transformations *)

(** An illuminant is a tuple of [xy] chromaticity coordinates. *)
Definition chromaticity : Type := (R * R)%type.

Definition XYZ_to_xyY (XYZ : vec3) (illuminant : chromaticity) : vec3 :=
  let '(X, Y, Z) := XYZ in
  if (Reqb X 0 && Reqb Y 0 && Reqb Z 0)%bool then
    (fst illuminant, snd illuminant, Y)
  else (X / (X + Y + Z), Y / (X + Y + Z), Y).

Definition xyY_to_XYZ (xyY : vec3) : vec3 :=
  let '(x, y, Y) := xyY in
  if Reqb y 0 then (0, 0, 0)
  else (x * Y / y, Y, (1 - x - y) * Y / y).

Definition xy_to_XYZ (xy : chromaticity) : vec3 :=
  xyY_to_XYZ (fst xy, snd xy, 1).

Definition XYZ_to_xy (XYZ : vec3) (illuminant : chromaticity) : chromaticity :=
  let '(x, y, _) := XYZ_to_xyY XYZ illuminant in (x, y).

(** [transfer_function=None] or a unary function applied element-wise. *)
Definition apply_transfer (tf : option (R -> R)) (v : vec3) : vec3 :=
  match tf with
  | Some f => vmap f v
  | None => v
  end.

Section RGB.

(** [colour.computation.chromatic_adaptation.get_chromatic_adaptation_matrix]
    is an external collaborator of this module: it is called with the two
    illuminants' tristimulus values and a method name, and either returns
    a 3x3 matrix or raises (an unknown method), which is [None] here. *)
Variable get_chromatic_adaptation_matrix : vec3 -> vec3 -> string -> option mat3.


Definition XYZ_to_RGB (XYZ : vec3) (illuminant_XYZ illuminant_RGB : chromaticity)
    (chromatic_adaptation_method : string) (from_XYZ : mat3)
    (transfer_function : option (R -> R)) : option vec3 :=
  match get_chromatic_adaptation_matrix
          (xy_to_XYZ illuminant_XYZ) (xy_to_XYZ illuminant_RGB)
          chromatic_adaptation_method with
  | None => None
  | Some cat =>
      let adaptedXYZ := mvmul cat XYZ in
      let RGB := mvmul from_XYZ adaptedXYZ in
      Some (apply_transfer transfer_function RGB)
  end.

Definition RGB_to_XYZ (RGB : vec3) (illuminant_RGB illuminant_XYZ : chromaticity)
    (chromatic_adaptation_method : string) (to_XYZ : mat3)
    (inverse_transfer_function : option (R -> R)) : option vec3 :=
  let RGB := apply_transfer inverse_transfer_function RGB in
  let XYZ := mvmul to_XYZ RGB in
  match get_chromatic_adaptation_matrix
          (xy_to_XYZ illuminant_RGB) (xy_to_XYZ illuminant_XYZ)
          chromatic_adaptation_method with
  | None => None
  | Some cat => Some (mvmul cat XYZ)
  end.

End RGB.

Definition XYZ_to_UCS (XYZ : vec3) : vec3 :=
  let '(X, Y, Z) := XYZ in
  (2 / 3 * X, Y, 1 / 2 * (- X + 3 * Y + Z)).

Definition UCS_to_XYZ (UVW : vec3) : vec3 :=
  let '(U, V, W) := UVW in
  (3 / 2 * U, V, 3 / 2 * U - (3 * V) + (2 * W)).

Definition XYZ_to_Luv (XYZ : vec3) (illuminant : chromaticity) : vec3 :=
  let '(X, Y, Z) := XYZ in
  let '(Xr, Yr, Zr) := xy_to_XYZ illuminant in
  let yr := Y / Yr in
  let L := if Rlt_dec CIE_E yr then 116 * fpow yr (1 / 3) - 16
           else CIE_K * yr in
  let u := 13 * L * ((4 * X / (X + 15 * Y + 3 * Z))
                     - (4 * Xr / (Xr + 15 * Yr + 3 * Zr))) in
  let v := 13 * L * ((9 * Y / (X + 15 * Y + 3 * Z))
                     - (9 * Yr / (Xr + 15 * Yr + 3 * Zr))) in
  (L, u, v).

Definition Luv_to_XYZ (Luv : vec3) (illuminant : chromaticity) : vec3 :=
  let '(L, u, v) := Luv in
  let '(Xr, Yr, Zr) := xy_to_XYZ illuminant in
  let Y := if Rlt_dec (CIE_E * CIE_K) L then ((L + 16) / 116) ^ 3
           else L / CIE_K in
  let a := 1 / 3 * ((52 * L / (u + 13 * L * (4 * Xr / (Xr + 15 * Yr + 3 * Zr)))) - 1) in
  let b := -5 * Y in
  let c := -1 / 3 in
  let d := Y * (39 * L / (v + 13 * L * (9 * Yr / (Xr + 15 * Yr + 3 * Zr))) - 5) in
  let X := (d - b) / (a - c) in
  let Z := X * a + b in
  (X, Y, Z).

Definition Luv_to_LCHuv (Luv : vec3) : vec3 :=
  let '(L, u, v) := Luv in
  let H := 180 * atan2 v u / PI in
  let H := if Rlt_dec H 0 then H + 360 else H in
  (L, sqrt (u ^ 2 + v ^ 2), H).

Definition LCHuv_to_Luv (LCHuv : vec3) : vec3 :=
  let '(L, C, H) := LCHuv in
  (L, C * cos (radians H), C * sin (radians H)).

Definition XYZ_to_Lab (XYZ : vec3) (illuminant : chromaticity) : vec3 :=
  let '(X, Y, Z) := XYZ in
  let '(Xr, Yr, Zr) := xy_to_XYZ illuminant in
  let xr := X / Xr in
  let yr := Y / Yr in
  let zr := Z / Zr in
  let fx := if Rlt_dec CIE_E xr then fpow xr (1 / 3)
            else (CIE_K * xr + 16) / 116 in
  let fy := if Rlt_dec CIE_E yr then fpow yr (1 / 3)
            else (CIE_K * yr + 16) / 116 in
  let fz := if Rlt_dec CIE_E zr then fpow zr (1 / 3)
            else (CIE_K * zr + 16) / 116 in
  let L := 116 * fy - 16 in
  let a := 500 * (fx - fy) in
  let b := 200 * (fy - fz) in
  (L, a, b).

Definition Lab_to_XYZ (Lab : vec3) (illuminant : chromaticity) : vec3 :=
  let '(L, a, b) := Lab in
  let '(Xr, Yr, Zr) := xy_to_XYZ illuminant in
  let fy := (L + 16) / 116 in
  let fx := a / 500 + fy in
  let fz := fy - b / 200 in
  let xr := if Rlt_dec CIE_E (fx ^ 3) then fx ^ 3
            else (116 * fx - 16) / CIE_K in
  let yr := if Rlt_dec (CIE_K * CIE_E) L then ((L + 16) / 116) ^ 3
            else L / CIE_K in
  let zr := if Rlt_dec CIE_E (fz ^ 3) then fz ^ 3
            else (116 * fz - 16) / CIE_K in
  let X := xr * Xr in
  let Y := yr * Yr in
  let Z := zr * Zr in
  (X, Y, Z).

Definition Lab_to_LCHab (Lab : vec3) : vec3 :=
  let '(L, a, b) := Lab in
  let H := 180 * atan2 b a / PI in
  let H := if Rlt_dec H 0 then H + 360 else H in
  (L, sqrt (a ^ 2 + b ^ 2), H).

Definition LCHab_to_Lab (LCHab : vec3) : vec3 :=
  let '(L, C, H) := LCHab in
  (L, C * cos (radians H), C * sin (radians H)).

(** ** colour.models.rgb.transfer_functions.dcdm *)

Definition oetf_DCDM (XYZ : R) (out_int : bool) : R :=
  let XYZ_p := fpow (XYZ / 52.37) (1 / 2.6) in
  if out_int then XYZ_p * 4095 else XYZ_p.

Definition eotf_DCDM (XYZ_p : R) (in_int : bool) : R :=
  let XYZ_p := if in_int then XYZ_p / 4095 else XYZ_p in
  52.37 * fpow XYZ_p 2.6.

(** ** The lines decided by rounding, on binary64 *)

(** A 3x1 [numpy.matrix] of doubles after [numpy.ravel]. *)
Definition vec3_b64 : Type := (float * float * float)%type.

(** [XYZ_to_UCS] with every operator the IEEE operation on doubles. *)
Definition XYZ_to_UCS_b64 (XYZ : vec3_b64) : vec3_b64 :=
  let '(X, Y, Z) := XYZ in
  (2 / 3 * X, Y, 1 / 2 * (- X + 3 * Y + Z))%float.

(** [UCS_to_XYZ] with every operator the IEEE operation on doubles. *)
Definition UCS_to_XYZ_b64 (UVW : vec3_b64) : vec3_b64 :=
  let '(U, V, W) := UVW in
  (3 / 2 * U, V, 3 / 2 * U - (3 * V) + (2 * W))%float.

(** [math.pi], the double nearest to PI. *)
Definition pi_b64 : float := 0x1.921fb54442d18p+1%float.

(** The three lines that compute the hue in [Luv_to_LCHuv] and in
    [Lab_to_LCHab], [H = 180. * theta / math.pi], then [H += 360.] when
    [H < 0.], on doubles; [theta] is the double [math.atan2] returned
    (the C library's function has no counterpart among the primitive
    floats). *)
Definition hue_b64 (theta : float) : float :=
  let H := (180 * theta / pi_b64)%float in
  if (H <? 0)%float then (H + 360)%float else H.

(** [math.sqrt(a ** 2 + b ** 2)] on doubles. *)
Definition chroma_b64 (a b : float) : float :=
  PrimFloat.sqrt (a * a + b * b)%float.

(** ** colour.computation.transformations: the remaining conversions *)

Section RGB_xyY.

Variable get_chromatic_adaptation_matrix : vec3 -> vec3 -> string -> option mat3.

(** The default illuminant of [XYZ_to_xyY], the entry "D50" of the
    "CIE 1931 2 Degree Standard Observer" table of
    [colour.dataset.illuminants.chromaticity_coordinates]; the table is
    not among the sources. *)
Variable D50 : chromaticity.

Definition xyY_to_RGB (xyY : vec3) (illuminant_xyY illuminant_RGB : chromaticity)
    (chromatic_adaptation_method : string) (from_XYZ : mat3)
    (transfer_function : option (R -> R)) : option vec3 :=
  XYZ_to_RGB get_chromatic_adaptation_matrix (xyY_to_XYZ xyY)
    illuminant_xyY illuminant_RGB chromatic_adaptation_method from_XYZ
    transfer_function.

(** [XYZ_to_xyY] is called here without an illuminant: it falls back on
    its default, whatever [illuminant_xyY] is. *)
Definition RGB_to_xyY (RGB : vec3) (illuminant_RGB illuminant_xyY : chromaticity)
    (chromatic_adaptation_method : string) (to_XYZ : mat3)
    (inverse_transfer_function : option (R -> R)) : option vec3 :=
  match RGB_to_XYZ get_chromatic_adaptation_matrix RGB
          illuminant_RGB illuminant_xyY chromatic_adaptation_method to_XYZ
          inverse_transfer_function with
  | None => None
  | Some XYZ => Some (XYZ_to_xyY XYZ D50)
  end.

End RGB_xyY.

Definition UCS_to_uv (UVW : vec3) : chromaticity :=
  let '(U, V, W) := UVW in
  (U / (U + V + W), V / (U + V + W)).

Definition UCS_uv_to_xy (uv : chromaticity) : chromaticity :=
  (3 * fst uv / (2 * fst uv - 8 * snd uv + 4),
   2 * snd uv / (2 * fst uv - 8 * snd uv + 4)).

Definition XYZ_to_UVW (XYZ : vec3) (illuminant : chromaticity) : vec3 :=
  let '(x, y, Y) := XYZ_to_xyY XYZ illuminant in
  let '(u, v) := UCS_to_uv (XYZ_to_UCS XYZ) in
  let '(u0, v0) := UCS_to_uv (XYZ_to_UCS (xy_to_XYZ illuminant)) in
  let W := 25 * fpow Y (1 / 3) - 17 in
  let U := 13 * W * (u - u0) in
  let V := 13 * W * (v - v0) in
  (U, V, W).

Definition Luv_to_uv (Luv : vec3) (illuminant : chromaticity) : chromaticity :=
  let '(X, Y, Z) := Luv_to_XYZ Luv illuminant in
  (4 * X / (X + 15 * Y + 3 * Z), 9 * Y / (X + 15 * Y + 3 * Z)).

Definition Luv_uv_to_xy (uv : chromaticity) : chromaticity :=
  (9 * fst uv / (6 * fst uv - 16 * snd uv + 12),
   4 * snd uv / (6 * fst uv - 16 * snd uv + 12)).

(** ** color/examples/examplesColorspaces.py *)

(** The matrix the script prints,
    [XYZ_TO_sRGB_MATRIX * (cat * ACES_RGB_TO_XYZ_MATRIX)], for the
    adaptation matrix and the two primary matrices it is given. *)
Definition RGB_to_RGB_matrix (XYZ_to_RGB_matrix cat RGB_to_XYZ_matrix : mat3) : mat3 :=
  mmul XYZ_to_RGB_matrix (mmul cat RGB_to_XYZ_matrix).

(** ** Vector operations used in the statements *)

Definition vscale (k : R) (v : vec3) : vec3 :=
  let '(a, b, c) := v in (k * a, k * b, k * c).

Definition vadd (v w : vec3) : vec3 :=
  let '(a, b, c) := v in
  let '(a', b', c') := w in (a + a', b + b', c + c').

(** ** Instances used to exercise the statements *)

(** An adaptation engine in the style of "XYZ Scaling": the diagonal
    matrix of the ratios of the destination and source white points; it
    accepts every method name. *)
Definition XYZ_scaling (src dst : vec3) (method : string) : option mat3 :=
  let '(Xs, Ys, Zs) := src in
  let '(Xd, Yd, Zd) := dst in
  Some ((Xd / Xs, 0, 0), (0, Yd / Ys, 0), (0, 0, Zd / Zs)).

(** A primary matrix and its inverse. *)
Definition NPM_example : mat3 := ((2, 1, 0), (0, 1, 0), (0, 0, 4)).
Definition NPM_example_inv : mat3 := ((1 / 2, - (1 / 2), 0), (0, 1, 0), (0, 0, 1 / 4)).

(** ** Vocabulary of the statements *)

(** The three components of a vector. *)
Definition fst3 (v : vec3) : R := fst (fst v).
Definition snd3 (v : vec3) : R := snd (fst v).
Definition thd3 (v : vec3) : R := snd v.

(** What "the inverse transfer function undoes the transfer function"
    means when either may be absent. *)
Definition transfer_inverse (tf itf : option (R -> R)) : Prop :=
  forall v : vec3, apply_transfer itf (apply_transfer tf v) = v.

(** A physically valid reference illuminant: a chromaticity strictly
    inside the triangle x > 0, y > 0, x + y < 1, so that its white point
    (x/y, 1, (1-x-y)/y) has three positive components. *)
Definition valid_illuminant (ill : chromaticity) : Prop :=
  0 < fst ill /\ 0 < snd ill /\ fst ill + snd ill < 1.

(** The piecewise rules of the Lab and Luv branches, named so that the
    statements about them can be shared: the per-channel rule of
    [XYZ_to_Lab], its inverse in [Lab_to_XYZ], and the lightness rule of
    [XYZ_to_Luv] with its inverse in [Luv_to_XYZ] and [Lab_to_XYZ]. *)
Definition Lab_f (t : R) : R :=
  if Rlt_dec CIE_E t then fpow t (1 / 3) else (CIE_K * t + 16) / 116.

Definition Lab_f_inv (f : R) : R :=
  if Rlt_dec CIE_E (f ^ 3) then f ^ 3 else (116 * f - 16) / CIE_K.

Definition L_of_yr (yr : R) : R :=
  if Rlt_dec CIE_E yr then 116 * fpow yr (1 / 3) - 16 else CIE_K * yr.

Definition yr_of_L (L : R) : R :=
  if Rlt_dec (CIE_K * CIE_E) L then ((L + 16) / 116) ^ 3 else L / CIE_K.

(** The chromaticity u', v' of the white point, as [XYZ_to_Luv] and
    [Luv_to_XYZ] compute it. *)
Definition white_u (ill : chromaticity) : R :=
  let '(Xr, Yr, Zr) := xy_to_XYZ ill in 4 * Xr / (Xr + 15 * Yr + 3 * Zr).

Definition white_v (ill : chromaticity) : R :=
  let '(Xr, Yr, Zr) := xy_to_XYZ ill in 9 * Yr / (Xr + 15 * Yr + 3 * Zr).

(** A vector is within [eps] of another, component by component. *)
Definition vclose (eps : R) (a b : vec3) : Prop :=
  let '(a0, a1, a2) := a in
  let '(b0, b1, b2) := b in
  Rabs (a0 - b0) <= eps /\ Rabs (a1 - b1) <= eps /\ Rabs (a2 - b2) <= eps.

(** * Properties *)

(** ** Comparisons *)

Lemma Reqb_true (x y : R) : x = y -> Reqb x y = true.
Proof.
  intros H. unfold Reqb. destruct (Req_dec_T x y); [reflexivity | contradiction].
Qed.

Lemma Reqb_false (x y : R) : x <> y -> Reqb x y = false.
Proof.
  intros H. unfold Reqb. destruct (Req_dec_T x y); [contradiction | reflexivity].
Qed.

Lemma Reqb_refl (x : R) : Reqb x x = true.
Proof. apply Reqb_true; reflexivity. Qed.

Lemma vec3_ext (a b c a' b' c' : R) :
  a = a' -> b = b' -> c = c' -> (a, b, c) = (a', b', c').
Proof. intros -> -> ->. reflexivity. Qed.

(** Split an equation between two vectors into its three components. *)
Ltac vec3_eq := apply vec3_ext.

Lemma mat3_ext (r0 r1 r2 r0' r1' r2' : vec3) :
  r0 = r0' -> r1 = r1' -> r2 = r2' -> (r0, r1, r2) = (r0', r1', r2').
Proof. intros -> -> ->. reflexivity. Qed.

(** Split an equation between two matrices into its nine entries. *)
Ltac mat3_eq := apply mat3_ext; vec3_eq.

(** Linear arithmetic under absolute values. *)
Ltac rabs_lra :=
  unfold Rabs;
  repeat match goal with
         | |- context [Rcase_abs ?x] => destruct (Rcase_abs x)
         end;
  lra.

Lemma vclose_refl (eps : R) (v : vec3) : 0 <= eps -> vclose eps v v.
Proof.
  intros He. destruct v as [[a b] c]. unfold vclose.
  repeat split; rewrite Rminus_diag, Rabs_R0; exact He.
Qed.

(** ** Chromaticity conversion layer *)

Lemma XYZ_to_xyY_zero (ill : chromaticity) :
  XYZ_to_xyY (0, 0, 0) ill = (fst ill, snd ill, 0).
Proof. unfold XYZ_to_xyY. rewrite Reqb_refl. reflexivity. Qed.

Lemma XYZ_to_xyY_nonzero (X Y Z : R) (ill : chromaticity) :
  ~ (X = 0 /\ Y = 0 /\ Z = 0) ->
  XYZ_to_xyY (X, Y, Z) ill = (X / (X + Y + Z), Y / (X + Y + Z), Y).
Proof.
  intros H. unfold XYZ_to_xyY, Reqb.
  destruct (Req_dec_T X 0), (Req_dec_T Y 0), (Req_dec_T Z 0);
    simpl; try reflexivity.
  exfalso; apply H; auto.
Qed.

Lemma xyY_to_XYZ_zero (x Y : R) : xyY_to_XYZ (x, 0, Y) = (0, 0, 0).
Proof. unfold xyY_to_XYZ. rewrite Reqb_refl. reflexivity. Qed.

Lemma xyY_to_XYZ_nonzero (x y Y : R) :
  y <> 0 -> xyY_to_XYZ (x, y, Y) = (x * Y / y, Y, (1 - x - y) * Y / y).
Proof. intros H. unfold xyY_to_XYZ. rewrite (Reqb_false _ _ H). reflexivity. Qed.

Lemma xy_to_XYZ_nonzero (x y : R) :
  y <> 0 -> xy_to_XYZ (x, y) = (x / y, 1, (1 - x - y) / y).
Proof.
  intros H. unfold xy_to_XYZ. simpl fst; simpl snd.
  rewrite (xyY_to_XYZ_nonzero _ _ _ H). vec3_eq; field; exact H.
Qed.

(** C2. Degenerate inputs are defined behaviour: [XYZ_to_xyY] applied to
    the all-zero vector returns the illuminant's chromaticity with
    luminance 0 and otherwise returns (X/(X+Y+Z), Y/(X+Y+Z), Y);
    [xyY_to_XYZ] applied to a vector with y = 0 returns the zero vector
    and otherwise returns (xY/y, Y, (1-x-y)Y/y).  Both functions are total:
    every input has a result. *)
Theorem chromaticity_degenerate_cases (ill : chromaticity) :
  XYZ_to_xyY (0, 0, 0) ill = (fst ill, snd ill, 0) /\
  (forall X Y Z, ~ (X = 0 /\ Y = 0 /\ Z = 0) ->
     XYZ_to_xyY (X, Y, Z) ill = (X / (X + Y + Z), Y / (X + Y + Z), Y)) /\
  (forall x Y, xyY_to_XYZ (x, 0, Y) = (0, 0, 0)) /\
  (forall x y Y, y <> 0 ->
     xyY_to_XYZ (x, y, Y) = (x * Y / y, Y, (1 - x - y) * Y / y)).
Proof.
  split; [apply XYZ_to_xyY_zero|].
  split; [intros X Y Z H; apply XYZ_to_xyY_nonzero; exact H|].
  split; [apply xyY_to_XYZ_zero|].
  intros x y Y H; apply xyY_to_XYZ_nonzero; exact H.
Qed.

Lemma chromaticity_degenerate_cases_witness :
  XYZ_to_xyY (1, 2, 1) (0.34567, 0.35850) = (1 / (1 + 2 + 1), 2 / (1 + 2 + 1), 2) /\
  xyY_to_XYZ (0.25, 0.25, 1) = (0.25 * 1 / 0.25, 1, (1 - 0.25 - 0.25) * 1 / 0.25).
Proof.
  destruct (chromaticity_degenerate_cases (0.34567, 0.35850)) as (_ & H1 & _ & H2).
  split.
  - apply H1. intros (H & _). lra.
  - apply H2. lra.
Defined.

(** C1, as the code has it.  The two conversions undo each other on the
    inputs that neither guard catches: for X+Y+Z <> 0 and Y <> 0,
    [xyY_to_XYZ (XYZ_to_xyY XYZ)] is XYZ, and for y <> 0 and Y <> 0,
    [XYZ_to_xyY (xyY_to_XYZ xyY)] is xyY, for every illuminant; the
    equalities are exact in real arithmetic. *)
Theorem xyY_XYZ_roundtrip (ill : chromaticity) :
  (forall X Y Z, X + Y + Z <> 0 -> Y <> 0 ->
     xyY_to_XYZ (XYZ_to_xyY (X, Y, Z) ill) = (X, Y, Z)) /\
  (forall x y Y, y <> 0 -> Y <> 0 ->
     XYZ_to_xyY (xyY_to_XYZ (x, y, Y)) ill = (x, y, Y)).
Proof.
  split.
  - intros X Y Z HS HY.
    rewrite XYZ_to_xyY_nonzero by (intros (_ & H & _); contradiction).
    assert (Hy : Y / (X + Y + Z) <> 0).
    { unfold Rdiv. apply Rmult_integral_contrapositive_currified;
        [exact HY | apply Rinv_neq_0_compat; exact HS]. }
    rewrite (xyY_to_XYZ_nonzero _ _ _ Hy).
    vec3_eq; try field; try reflexivity; repeat split; assumption.
  - intros x y Y Hy HY.
    rewrite (xyY_to_XYZ_nonzero _ _ _ Hy).
    rewrite XYZ_to_xyY_nonzero by (intros (_ & H & _); contradiction).
    assert (HS : x * Y + Y * y + (1 - x - y) * Y <> 0).
    { replace (x * Y + Y * y + (1 - x - y) * Y) with Y by ring. exact HY. }
    vec3_eq; try reflexivity; field; split; assumption.
Qed.

Lemma xyY_XYZ_roundtrip_witness :
  xyY_to_XYZ (XYZ_to_xyY (1, 2, 1) (0.34567, 0.35850)) = (1, 2, 1) /\
  XYZ_to_xyY (xyY_to_XYZ (0.25, 0.25, 1)) (0.34567, 0.35850) = (0.25, 0.25, 1).
Proof.
  destruct (xyY_XYZ_roundtrip (0.34567, 0.35850)) as [H1 H2].
  split; [apply H1; lra | apply H2; lra].
Defined.

(** C1 fails as stated.  XYZ = (1, 0, 0) has X+Y+Z <> 0, yet its xyY form
    (1, 0, 0) has y = 0 and comes back as the zero vector; xyY =
    (0.3, 0.3, 0) has y <> 0, yet its XYZ form is the zero vector, which
    comes back as the illuminant's chromaticity.  Neither result is within
    1e-6 of the input. *)
Lemma xyY_XYZ_roundtrip_fails_at_zero_luminance :
  (1 + 0 + 0 <> 0 /\
   ~ vclose 1e-6 (xyY_to_XYZ (XYZ_to_xyY (1, 0, 0) (0.34567, 0.35850))) (1, 0, 0)) /\
  (0.3 <> 0 /\
   ~ vclose 1e-6 (XYZ_to_xyY (xyY_to_XYZ (0.3, 0.3, 0)) (0.34567, 0.35850))
       (0.3, 0.3, 0)).
Proof.
  split; (split; [lra|]).
  - rewrite XYZ_to_xyY_nonzero by (intros (H & _); lra).
    replace (0 / (1 + 0 + 0)) with 0 by (unfold Rdiv; ring).
    rewrite xyY_to_XYZ_zero. unfold vclose. intros (H & _).
    revert H. apply Rlt_not_le. rabs_lra.
  - rewrite xyY_to_XYZ_nonzero by lra.
    replace (0.3 * 0 / 0.3) with 0 by (unfold Rdiv; ring).
    replace ((1 - 0.3 - 0.3) * 0 / 0.3) with 0 by (unfold Rdiv; ring).
    rewrite XYZ_to_xyY_zero. unfold vclose, fst, snd. intros (H & _).
    revert H. apply Rlt_not_le. rabs_lra.
Qed.

(** ** UCS branch *)

(** C9, as the code has it.  In exact real arithmetic [XYZ_to_UCS] and
    [UCS_to_XYZ] are two-sided inverses on every vector of three reals,
    with no precondition: the forward map is U = 2/3 X, V = Y,
    W = 1/2 (-X + 3Y + Z) and the backward map is its algebraic
    inverse. *)
Theorem UCS_XYZ_inverse :
  (forall X Y Z, XYZ_to_UCS (X, Y, Z) = (2 / 3 * X, Y, 1 / 2 * (- X + 3 * Y + Z))) /\
  (forall XYZ, UCS_to_XYZ (XYZ_to_UCS XYZ) = XYZ) /\
  (forall UVW, XYZ_to_UCS (UCS_to_XYZ UVW) = UVW).
Proof.
  split; [reflexivity|]. split.
  - intros [[X Y] Z]. unfold XYZ_to_UCS, UCS_to_XYZ.
    vec3_eq; field.
  - intros [[U V] W]. unfold XYZ_to_UCS, UCS_to_XYZ.
    vec3_eq; field.
Qed.

(** C9 fails as stated, with no tolerance, on the doubles the code
    computes with.  XYZ = (7, 1, 1) comes back from
    [UCS_to_XYZ (XYZ_to_UCS XYZ)] as (6.9999999999999991, 1,
    0.99999999999999911): the products by 2/3 and 3/2 round.  In the other
    direction UVW = (0.1, 1, 0.3) comes back from
    [XYZ_to_UCS (UCS_to_XYZ UVW)] with W = 0.30000000000000004. *)
Lemma UCS_roundtrip_rounds_on_binary64 :
  UCS_to_XYZ_b64 (XYZ_to_UCS_b64 (7, 1, 1)%float)
  = (0x1.bffffffffffffp+2, 1, 0x1.ffffffffffff8p-1)%float /\
  (0x1.bffffffffffffp+2 =? 7)%float = false /\
  XYZ_to_UCS_b64 (UCS_to_XYZ_b64 (0x1.999999999999ap-4, 1, 0x1.3333333333333p-2)%float)
  = (0x1.999999999999ap-4, 1, 0x1.3333333333334p-2)%float /\
  (0x1.3333333333334p-2 =? 0x1.3333333333333p-2)%float = false.
Proof. repeat split; vm_compute; reflexivity. Qed.

(** ** RGB <-> XYZ transform *)

Lemma mvmul_mmul (A B : mat3) (v : vec3) :
  mvmul A (mvmul B v) = mvmul (mmul A B) v.
Proof.
  destruct A as [[[[a00 a01] a02] [[a10 a11] a12]] [[a20 a21] a22]].
  destruct B as [[[[b00 b01] b02] [[b10 b11] b12]] [[b20 b21] b22]].
  destruct v as [[x y] z].
  unfold mvmul, mmul, col0, col1, col2, dot. vec3_eq; ring.
Qed.

Lemma mvmul_I3 (v : vec3) : mvmul I3 v = v.
Proof.
  destruct v as [[x y] z]. unfold mvmul, I3, dot. vec3_eq; ring.
Qed.

Lemma transfer_inverse_some (f g : R -> R) :
  (forall x, g (f x) = x) -> transfer_inverse (Some f) (Some g).
Proof.
  intros H [[a b] c]. unfold apply_transfer, vmap. rewrite !H. reflexivity.
Qed.

Lemma transfer_inverse_none : transfer_inverse None None.
Proof. intros v. reflexivity. Qed.

(** C3. [XYZ_to_RGB] adapts, then applies [from_XYZ], then the optional
    transfer function; [RGB_to_XYZ] decodes with the inverse transfer
    function first, then applies [to_XYZ], then the adaptation matrix of
    the swapped illuminants.  When the engine's matrices for the two
    directions are mutually inverse, [to_XYZ] inverts [from_XYZ] and the
    inverse transfer function undoes the transfer function, the second
    pipeline applied to the result of the first gives back V. *)
Theorem RGB_XYZ_roundtrip
    (get_cat : vec3 -> vec3 -> string -> option mat3)
    (V : vec3) (illuminant_XYZ illuminant_RGB : chromaticity)
    (method : string) (from_XYZ to_XYZ : mat3)
    (tf itf : option (R -> R)) (M M' : mat3) :
  get_cat (xy_to_XYZ illuminant_XYZ) (xy_to_XYZ illuminant_RGB) method = Some M ->
  get_cat (xy_to_XYZ illuminant_RGB) (xy_to_XYZ illuminant_XYZ) method = Some M' ->
  mmul M' M = I3 ->
  mmul to_XYZ from_XYZ = I3 ->
  transfer_inverse tf itf ->
  exists RGB,
    XYZ_to_RGB get_cat V illuminant_XYZ illuminant_RGB method from_XYZ tf = Some RGB /\
    RGB = apply_transfer tf (mvmul from_XYZ (mvmul M V)) /\
    RGB_to_XYZ get_cat RGB illuminant_RGB illuminant_XYZ method to_XYZ itf
      = Some (mvmul M' (mvmul to_XYZ (apply_transfer itf RGB))) /\
    RGB_to_XYZ get_cat RGB illuminant_RGB illuminant_XYZ method to_XYZ itf = Some V.
Proof.
  intros HM HM' Hcat Hnpm Htf.
  exists (apply_transfer tf (mvmul from_XYZ (mvmul M V))).
  unfold XYZ_to_RGB, RGB_to_XYZ. rewrite HM, HM'.
  repeat split.
  rewrite Htf, (mvmul_mmul to_XYZ from_XYZ), Hnpm, mvmul_I3.
  rewrite (mvmul_mmul M' M), Hcat, mvmul_I3.
  reflexivity.
Qed.

Lemma RGB_XYZ_roundtrip_witness :
  exists RGB,
    XYZ_to_RGB XYZ_scaling (1, 2, 3) (1 / 4, 1 / 4) (1 / 2, 1 / 4) "Bradford"
      NPM_example (Some (fun x => 2 * x + 1)) = Some RGB /\
    RGB = apply_transfer (Some (fun x => 2 * x + 1))
            (mvmul NPM_example (mvmul ((2, 0, 0), (0, 1, 0), (0, 0, 1 / 2)) (1, 2, 3))) /\
    RGB_to_XYZ XYZ_scaling RGB (1 / 2, 1 / 4) (1 / 4, 1 / 4) "Bradford"
      NPM_example_inv (Some (fun x => (x - 1) / 2))
      = Some (mvmul ((1 / 2, 0, 0), (0, 1, 0), (0, 0, 2))
                (mvmul NPM_example_inv
                   (apply_transfer (Some (fun x => (x - 1) / 2)) RGB))) /\
    RGB_to_XYZ XYZ_scaling RGB (1 / 2, 1 / 4) (1 / 4, 1 / 4) "Bradford"
      NPM_example_inv (Some (fun x => (x - 1) / 2)) = Some (1, 2, 3).
Proof.
  apply RGB_XYZ_roundtrip.
  - rewrite !xy_to_XYZ_nonzero by lra. unfold XYZ_scaling.
    apply f_equal. mat3_eq; try reflexivity; field.
  - rewrite !xy_to_XYZ_nonzero by lra. unfold XYZ_scaling.
    apply f_equal. mat3_eq; try reflexivity; field.
  - unfold mmul, I3, col0, col1, col2, dot.
    mat3_eq; field.
  - unfold mmul, I3, NPM_example, NPM_example_inv, col0, col1, col2, dot.
    mat3_eq; field.
  - apply transfer_inverse_some. intros x. field.
Defined.

(** ** The CIE constants and the piecewise lightness rule *)

Lemma CIE_E_value : CIE_E = 216 / 24389.
Proof. unfold CIE_E. field. Qed.

Lemma CIE_E_pos : 0 < CIE_E.
Proof. rewrite CIE_E_value. lra. Qed.

Lemma CIE_K_pos : 0 < CIE_K.
Proof. unfold CIE_K. lra. Qed.

Lemma CIE_K_times_E : CIE_K * CIE_E = 8.
Proof. unfold CIE_K, CIE_E. field. Qed.

Lemma CIE_E_times_K : CIE_E * CIE_K = 8.
Proof. rewrite Rmult_comm. apply CIE_K_times_E. Qed.

Lemma cube_lt (a b : R) : a < b -> a ^ 3 < b ^ 3.
Proof.
  intros H.
  assert (H1 : 0 < b - a) by lra.
  assert (H2 : 0 <= (a + b) ^ 2) by apply pow2_ge_0.
  assert (H3 : 0 <= a ^ 2) by apply pow2_ge_0.
  assert (H4 : 0 <= b ^ 2) by apply pow2_ge_0.
  assert (H5 : 0 < a ^ 2 + a * b + b ^ 2).
  { destruct (Req_dec a 0) as [-> | Ha].
    - assert (0 < b) by lra. nra.
    - assert (0 < a ^ 2) by (apply pow_nonzero with (n := 2%nat) in Ha; lra). nra. }
  replace (b ^ 3) with (a ^ 3 + (b - a) * (a ^ 2 + a * b + b ^ 2)) by ring.
  assert (0 < (b - a) * (a ^ 2 + a * b + b ^ 2))
    by (apply Rmult_lt_0_compat; assumption).
  lra.
Qed.

Lemma cube_le (a b : R) : a <= b -> a ^ 3 <= b ^ 3.
Proof.
  intros [H | ->]; [left; apply cube_lt; exact H | right; reflexivity].
Qed.

Lemma cube_lt_inv (a b : R) : a ^ 3 < b ^ 3 -> a < b.
Proof.
  intros H. destruct (Rlt_le_dec a b) as [Hlt | Hle]; [exact Hlt|].
  apply cube_le in Hle. lra.
Qed.

Lemma six_29_cubed : (6 / 29) ^ 3 = CIE_E.
Proof. reflexivity. Qed.

(** The cube root [x ** (1. / 3.)] of a positive number. *)
Lemma fpow_third_pos (x : R) : 0 < x -> 0 < fpow x (1 / 3).
Proof.
  intros H. unfold fpow. destruct (Rlt_dec 0 x); [|contradiction].
  unfold Rpower. apply exp_pos.
Qed.

Lemma fpow_third_cubed (x : R) : 0 < x -> fpow x (1 / 3) ^ 3 = x.
Proof.
  intros H. unfold fpow. destruct (Rlt_dec 0 x); [|contradiction].
  rewrite <- (Rpower_pow 3) by (unfold Rpower; apply exp_pos).
  rewrite Rpower_mult.
  replace (1 / 3 * INR 3) with 1 by (simpl; field).
  apply Rpower_1; exact H.
Qed.

Lemma fpow_third_of_cube (y : R) : 0 < y -> fpow (y ^ 3) (1 / 3) = y.
Proof.
  intros H.
  assert (H3 : 0 < y ^ 3) by (apply pow_lt; exact H).
  unfold fpow. destruct (Rlt_dec 0 (y ^ 3)); [|contradiction].
  rewrite <- (Rpower_pow 3) by exact H.
  rewrite Rpower_mult.
  replace (INR 3 * (1 / 3)) with 1 by (simpl; field).
  apply Rpower_1; exact H.
Qed.

Lemma fpow_third_above (x : R) : CIE_E < x -> 6 / 29 < fpow x (1 / 3).
Proof.
  intros H. pose proof CIE_E_pos as HE.
  apply cube_lt_inv. rewrite fpow_third_cubed by lra.
  rewrite six_29_cubed. exact H.
Qed.

(** ** Luv and Lab branches: which segment is taken *)

(** C4. In [XYZ_to_Luv] the lightness is 116 yr^(1/3) - 16 when
    yr = Y/Yr exceeds CIE_E = (6/29)^3 and CIE_K yr (CIE_K = 24389/27)
    otherwise, Yr being the nonzero luminance of the white point; in
    [Luv_to_XYZ] the luminance is ((L+16)/116)^3 when L exceeds the
    product CIE_E CIE_K and L/CIE_K otherwise.  The two tests differ:
    L = 1 lies above CIE_E and still takes the linear segment of the
    inverse. *)
Theorem Luv_lightness_branches (ill : chromaticity) :
  (CIE_E = (6 / 29) ^ 3 /\ CIE_K = 24389 / 27) /\
  (forall X Y Z,
     let Yr := snd3 (xy_to_XYZ ill) in
     let yr := Y / Yr in
     Yr <> 0 ->
     (CIE_E < yr ->
        fst3 (XYZ_to_Luv (X, Y, Z) ill) = 116 * Rpower yr (1 / 3) - 16) /\
     (yr <= CIE_E ->
        fst3 (XYZ_to_Luv (X, Y, Z) ill) = CIE_K * yr)) /\
  (forall L u v,
     (CIE_E * CIE_K < L ->
        snd3 (Luv_to_XYZ (L, u, v) ill) = ((L + 16) / 116) ^ 3) /\
     (L <= CIE_E * CIE_K ->
        snd3 (Luv_to_XYZ (L, u, v) ill) = L / CIE_K)) /\
  (forall u v,
     CIE_E < 1 /\ 1 <= CIE_E * CIE_K /\
     snd3 (Luv_to_XYZ (1, u, v) ill) = 1 / CIE_K).
Proof.
  split; [split; reflexivity|].
  split; [|split].
  - intros X Y Z Yr yr _. unfold XYZ_to_Luv, yr, Yr.
    destruct (xy_to_XYZ ill) as [[Xr Yr'] Zr]. cbn [snd3 fst snd].
    destruct (Rlt_dec CIE_E (Y / Yr')) as [Hgt | Hle]; cbn [fst3 fst]; split; intros H.
    + unfold fpow. destruct (Rlt_dec 0 (Y / Yr')) as [_ | Hn]; [reflexivity|].
      pose proof CIE_E_pos. exfalso; apply Hn; lra.
    + lra.
    + contradiction.
    + reflexivity.
  - intros L u v. unfold Luv_to_XYZ.
    destruct (xy_to_XYZ ill) as [[Xr Yr] Zr].
    destruct (Rlt_dec (CIE_E * CIE_K) L) as [Hgt | Hle]; cbn [snd3 fst snd];
      split; intros H; try reflexivity; try contradiction; lra.
  - intros u v. split; [rewrite CIE_E_value; lra|].
    split; [rewrite CIE_E_times_K; lra|].
    unfold Luv_to_XYZ. destruct (xy_to_XYZ ill) as [[Xr Yr] Zr].
    destruct (Rlt_dec (CIE_E * CIE_K) 1) as [Hgt | Hle]; cbn [snd3 fst snd];
      [rewrite CIE_E_times_K in Hgt; lra | reflexivity].
Qed.

Lemma Luv_lightness_branches_witness :
  fst3 (XYZ_to_Luv (1, 1 / 2, 1) (1 / 3, 1 / 3))
    = 116 * Rpower (1 / 2 / snd3 (xy_to_XYZ (1 / 3, 1 / 3))) (1 / 3) - 16 /\
  fst3 (XYZ_to_Luv (1, 1 / 1000, 1) (1 / 3, 1 / 3))
    = CIE_K * (1 / 1000 / snd3 (xy_to_XYZ (1 / 3, 1 / 3))) /\
  snd3 (Luv_to_XYZ (50, 0, 0) (1 / 3, 1 / 3)) = ((50 + 16) / 116) ^ 3 /\
  snd3 (Luv_to_XYZ (5, 0, 0) (1 / 3, 1 / 3)) = 5 / CIE_K.
Proof.
  destruct (Luv_lightness_branches (1 / 3, 1 / 3)) as (_ & H1 & H2 & _).
  assert (Hw : snd3 (xy_to_XYZ (1 / 3, 1 / 3)) = 1).
  { rewrite xy_to_XYZ_nonzero by lra. reflexivity. }
  repeat split.
  - apply (H1 1 (1 / 2) 1); rewrite Hw; [lra|]. rewrite CIE_E_value. lra.
  - apply (H1 1 (1 / 1000) 1); rewrite Hw; [lra|]. rewrite CIE_E_value. lra.
  - apply (H2 50 0 0). rewrite CIE_E_times_K. lra.
  - apply (H2 5 0 0). rewrite CIE_E_times_K. lra.
Defined.

(** C5. In [Lab_to_XYZ], with fy = (L+16)/116, fx = a/500 + fy and
    fz = fy - b/200, the X and Z channels test the cube of their own f
    value against CIE_E (fx^3, else (116 fx - 16)/CIE_K, and the same for
    fz) while the Y channel tests L against CIE_K CIE_E
    (((L+16)/116)^3, else L/CIE_K); each ratio is then scaled by the
    white point. *)
Theorem Lab_to_XYZ_branches (L a b : R) (ill : chromaticity) :
  let fy := (L + 16) / 116 in
  let fx := a / 500 + fy in
  let fz := fy - b / 200 in
  let Xr := fst3 (xy_to_XYZ ill) in
  let Yr := snd3 (xy_to_XYZ ill) in
  let Zr := thd3 (xy_to_XYZ ill) in
  (CIE_E < fx ^ 3 -> fst3 (Lab_to_XYZ (L, a, b) ill) = fx ^ 3 * Xr) /\
  (fx ^ 3 <= CIE_E ->
     fst3 (Lab_to_XYZ (L, a, b) ill) = (116 * fx - 16) / CIE_K * Xr) /\
  (CIE_K * CIE_E < L ->
     snd3 (Lab_to_XYZ (L, a, b) ill) = ((L + 16) / 116) ^ 3 * Yr) /\
  (L <= CIE_K * CIE_E -> snd3 (Lab_to_XYZ (L, a, b) ill) = L / CIE_K * Yr) /\
  (CIE_E < fz ^ 3 -> thd3 (Lab_to_XYZ (L, a, b) ill) = fz ^ 3 * Zr) /\
  (fz ^ 3 <= CIE_E ->
     thd3 (Lab_to_XYZ (L, a, b) ill) = (116 * fz - 16) / CIE_K * Zr).
Proof.
  intros fy fx fz Xr Yr Zr. unfold Lab_to_XYZ.
  subst Xr Yr Zr. destruct (xy_to_XYZ ill) as [[Xr Yr] Zr].
  fold fy. fold fx. fold fz. cbn [fst3 snd3 thd3 fst snd].
  destruct (Rlt_dec CIE_E (fx ^ 3)), (Rlt_dec (CIE_K * CIE_E) L),
    (Rlt_dec CIE_E (fz ^ 3));
    repeat split; intros H; try reflexivity; try contradiction; lra.
Qed.

Lemma Lab_to_XYZ_branches_witness :
  snd3 (Lab_to_XYZ (50, 0, 0) (1 / 3, 1 / 3))
    = ((50 + 16) / 116) ^ 3 * snd3 (xy_to_XYZ (1 / 3, 1 / 3)) /\
  snd3 (Lab_to_XYZ (1, 0, 0) (1 / 3, 1 / 3))
    = 1 / CIE_K * snd3 (xy_to_XYZ (1 / 3, 1 / 3)).
Proof.
  split.
  - apply (Lab_to_XYZ_branches 50 0 0 (1 / 3, 1 / 3)).
    rewrite CIE_K_times_E. lra.
  - apply (Lab_to_XYZ_branches 1 0 0 (1 / 3, 1 / 3)).
    rewrite CIE_K_times_E. lra.
Defined.

(** ** Luv and Lab branches: the piecewise rules invert each other *)

Lemma Lab_f_inv_f (t : R) : Lab_f_inv (Lab_f t) = t.
Proof.
  pose proof CIE_E_pos as HE. pose proof CIE_K_pos as HK.
  pose proof CIE_K_times_E as HKE.
  unfold Lab_f, Lab_f_inv. destruct (Rlt_dec CIE_E t) as [Hgt | Hle].
  - rewrite fpow_third_cubed by lra.
    destruct (Rlt_dec CIE_E t); [reflexivity | contradiction].
  - assert (Hf : (CIE_K * t + 16) / 116 <= 6 / 29) by nra.
    apply cube_le in Hf. rewrite six_29_cubed in Hf.
    destruct (Rlt_dec CIE_E (((CIE_K * t + 16) / 116) ^ 3)); [lra|].
    field. lra.
Qed.

Lemma Lab_f_f_inv (f : R) : Lab_f (Lab_f_inv f) = f.
Proof.
  pose proof CIE_E_pos as HE. pose proof CIE_K_pos as HK.
  pose proof CIE_K_times_E as HKE.
  unfold Lab_f, Lab_f_inv. destruct (Rlt_dec CIE_E (f ^ 3)) as [Hgt | Hle].
  - destruct (Rlt_dec CIE_E (f ^ 3)); [|contradiction].
    apply fpow_third_of_cube. apply cube_lt_inv.
    replace (0 ^ 3) with 0 by ring. lra.
  - assert (Hf : f <= 6 / 29).
    { destruct (Rle_lt_dec f (6 / 29)) as [H | H]; [exact H|].
      apply cube_lt in H. rewrite six_29_cubed in H. lra. }
    assert (Ht : (116 * f - 16) / CIE_K <= CIE_E).
    { apply Rmult_le_reg_l with CIE_K; [exact HK|].
      replace (CIE_K * ((116 * f - 16) / CIE_K)) with (116 * f - 16)
        by (field; lra).
      lra. }
    destruct (Rlt_dec CIE_E ((116 * f - 16) / CIE_K)); [lra|].
    field. lra.
Qed.

Lemma yr_of_L_Lab_f_inv (L : R) : yr_of_L L = Lab_f_inv ((L + 16) / 116).
Proof.
  pose proof CIE_K_pos as HK.
  unfold yr_of_L, Lab_f_inv. rewrite CIE_K_times_E.
  destruct (Rlt_dec 8 L) as [Hgt | Hle].
  - assert (Hf : 6 / 29 < (L + 16) / 116) by lra.
    apply cube_lt in Hf. rewrite six_29_cubed in Hf.
    destruct (Rlt_dec CIE_E (((L + 16) / 116) ^ 3)); [reflexivity | contradiction].
  - assert (Hf : (L + 16) / 116 <= 6 / 29) by lra.
    apply cube_le in Hf. rewrite six_29_cubed in Hf.
    destruct (Rlt_dec CIE_E (((L + 16) / 116) ^ 3)); [lra|].
    field. lra.
Qed.

Lemma L_of_yr_Lab_f (yr : R) : L_of_yr yr = 116 * Lab_f yr - 16.
Proof.
  unfold L_of_yr, Lab_f. destruct (Rlt_dec CIE_E yr); [reflexivity | field].
Qed.

Lemma yr_of_L_of_yr (yr : R) : yr_of_L (L_of_yr yr) = yr.
Proof.
  rewrite yr_of_L_Lab_f_inv, L_of_yr_Lab_f.
  replace ((116 * Lab_f yr - 16 + 16) / 116) with (Lab_f yr) by field.
  apply Lab_f_inv_f.
Qed.

Lemma L_of_yr_of_L (L : R) : L_of_yr (yr_of_L L) = L.
Proof.
  rewrite yr_of_L_Lab_f_inv, L_of_yr_Lab_f, Lab_f_f_inv. field.
Qed.

Lemma L_of_yr_pos (yr : R) : 0 < yr -> 0 < L_of_yr yr.
Proof.
  intros H. pose proof CIE_K_pos as HK. unfold L_of_yr.
  destruct (Rlt_dec CIE_E yr) as [Hgt | Hle].
  - apply fpow_third_above in Hgt. lra.
  - apply Rmult_lt_0_compat; assumption.
Qed.

Lemma yr_of_L_nonzero (L : R) : L <> 0 -> yr_of_L L <> 0.
Proof.
  intros H. pose proof CIE_K_pos as HK. unfold yr_of_L.
  rewrite CIE_K_times_E. destruct (Rlt_dec 8 L).
  - apply pow_nonzero. lra.
  - unfold Rdiv. apply Rmult_integral_contrapositive_currified;
      [exact H | apply Rinv_neq_0_compat; lra].
Qed.

Lemma valid_illuminant_white (ill : chromaticity) :
  valid_illuminant ill ->
  exists Xr Zr, xy_to_XYZ ill = (Xr, 1, Zr) /\ 0 < Xr /\ 0 < Zr.
Proof.
  destruct ill as [x y]. unfold valid_illuminant. cbn [fst snd].
  intros (Hx & Hy & Hxy).
  exists (x / y), ((1 - x - y) / y).
  rewrite xy_to_XYZ_nonzero by lra.
  repeat split; apply Rdiv_lt_0_compat; lra.
Qed.

(** ** Lab branch: round trips *)

Lemma XYZ_to_Lab_eq (X Y Z : R) (ill : chromaticity) (Xr Yr Zr : R) :
  xy_to_XYZ ill = (Xr, Yr, Zr) ->
  XYZ_to_Lab (X, Y, Z) ill
  = (116 * Lab_f (Y / Yr) - 16,
     500 * (Lab_f (X / Xr) - Lab_f (Y / Yr)),
     200 * (Lab_f (Y / Yr) - Lab_f (Z / Zr))).
Proof. intros H. unfold XYZ_to_Lab. rewrite H. reflexivity. Qed.

Lemma Lab_to_XYZ_eq (L a b : R) (ill : chromaticity) (Xr Yr Zr : R) :
  xy_to_XYZ ill = (Xr, Yr, Zr) ->
  Lab_to_XYZ (L, a, b) ill
  = (Lab_f_inv (a / 500 + (L + 16) / 116) * Xr,
     yr_of_L L * Yr,
     Lab_f_inv ((L + 16) / 116 - b / 200) * Zr).
Proof. intros H. unfold Lab_to_XYZ. rewrite H. reflexivity. Qed.

Lemma Lab_forward_inverse (X Y Z : R) (ill : chromaticity) :
  valid_illuminant ill ->
  Lab_to_XYZ (XYZ_to_Lab (X, Y, Z) ill) ill = (X, Y, Z).
Proof.
  intros Hill. destruct (valid_illuminant_white ill Hill) as (Xr & Zr & Hw & HXr & HZr).
  rewrite (XYZ_to_Lab_eq _ _ _ _ _ _ _ Hw), (Lab_to_XYZ_eq _ _ _ _ _ _ _ Hw).
  rewrite <- L_of_yr_Lab_f, yr_of_L_of_yr, L_of_yr_Lab_f.
  replace (500 * (Lab_f (X / Xr) - Lab_f (Y / 1)) / 500
           + (116 * Lab_f (Y / 1) - 16 + 16) / 116)
    with (Lab_f (X / Xr)) by field.
  replace ((116 * Lab_f (Y / 1) - 16 + 16) / 116
           - 200 * (Lab_f (Y / 1) - Lab_f (Z / Zr)) / 200)
    with (Lab_f (Z / Zr)) by field.
  rewrite !Lab_f_inv_f. vec3_eq; field; lra.
Qed.

Lemma Lab_inverse_forward (L a b : R) (ill : chromaticity) :
  valid_illuminant ill ->
  XYZ_to_Lab (Lab_to_XYZ (L, a, b) ill) ill = (L, a, b).
Proof.
  intros Hill. destruct (valid_illuminant_white ill Hill) as (Xr & Zr & Hw & HXr & HZr).
  rewrite (Lab_to_XYZ_eq _ _ _ _ _ _ _ Hw), (XYZ_to_Lab_eq _ _ _ _ _ _ _ Hw).
  replace (Lab_f_inv (a / 500 + (L + 16) / 116) * Xr / Xr)
    with (Lab_f_inv (a / 500 + (L + 16) / 116)) by (field; lra).
  replace (Lab_f_inv ((L + 16) / 116 - b / 200) * Zr / Zr)
    with (Lab_f_inv ((L + 16) / 116 - b / 200)) by (field; lra).
  replace (yr_of_L L * 1 / 1) with (yr_of_L L) by field.
  rewrite yr_of_L_Lab_f_inv, !Lab_f_f_inv. vec3_eq; field.
Qed.

(** ** Luv branch: round trips *)

Lemma XYZ_to_Luv_eq (X Y Z : R) (ill : chromaticity) (Xr Yr Zr : R) :
  xy_to_XYZ ill = (Xr, Yr, Zr) ->
  XYZ_to_Luv (X, Y, Z) ill
  = (L_of_yr (Y / Yr),
     13 * L_of_yr (Y / Yr) * (4 * X / (X + 15 * Y + 3 * Z)
                              - 4 * Xr / (Xr + 15 * Yr + 3 * Zr)),
     13 * L_of_yr (Y / Yr) * (9 * Y / (X + 15 * Y + 3 * Z)
                              - 9 * Yr / (Xr + 15 * Yr + 3 * Zr))).
Proof. intros H. unfold XYZ_to_Luv. rewrite H. reflexivity. Qed.

Lemma Luv_to_XYZ_eq (L u v : R) (ill : chromaticity) (Xr Yr Zr : R) :
  xy_to_XYZ ill = (Xr, Yr, Zr) ->
  let Y := yr_of_L L in
  let a := 1 / 3 * (52 * L / (u + 13 * L * (4 * Xr / (Xr + 15 * Yr + 3 * Zr))) - 1) in
  let b := -5 * Y in
  let c := -1 / 3 in
  let d := Y * (39 * L / (v + 13 * L * (9 * Yr / (Xr + 15 * Yr + 3 * Zr))) - 5) in
  Luv_to_XYZ (L, u, v) ill = ((d - b) / (a - c), Y, (d - b) / (a - c) * a + b).
Proof.
  intros H. unfold Luv_to_XYZ, yr_of_L. rewrite H.
  rewrite CIE_E_times_K, CIE_K_times_E. reflexivity.
Qed.

(** The inverse undoes the forward transform wherever the forward
    transform keeps the two quotients of the inverse defined: X and Y
    nonzero and a nonzero X + 15 Y + 3 Z. *)
Lemma Luv_forward_inverse (X Y Z : R) (ill : chromaticity) :
  valid_illuminant ill ->
  0 < X -> 0 < Y -> 0 <= Z ->
  Luv_to_XYZ (XYZ_to_Luv (X, Y, Z) ill) ill = (X, Y, Z).
Proof.
  intros Hill HX HY HZ.
  destruct (valid_illuminant_white ill Hill) as (Xr & Zr & Hw & HXr & HZr).
  rewrite (XYZ_to_Luv_eq _ _ _ _ _ _ _ Hw), (Luv_to_XYZ_eq _ _ _ _ _ _ _ Hw).
  replace (Y / 1) with Y by field.
  rewrite yr_of_L_of_yr.
  pose proof (L_of_yr_pos Y HY) as HL.
  generalize dependent (L_of_yr Y). intros L HL.
  generalize (4 * Xr / (Xr + 15 * 1 + 3 * Zr)). intros u0.
  generalize (9 * 1 / (Xr + 15 * 1 + 3 * Zr)). intros v0.
  assert (HD : 0 < X + 15 * Y + 3 * Z) by lra.
  replace (13 * L * (4 * X / (X + 15 * Y + 3 * Z) - u0) + 13 * L * u0)
    with (52 * L * X / (X + 15 * Y + 3 * Z)) by (field; lra).
  replace (13 * L * (9 * Y / (X + 15 * Y + 3 * Z) - v0) + 13 * L * v0)
    with (117 * L * Y / (X + 15 * Y + 3 * Z)) by (field; lra).
  vec3_eq; try reflexivity; field; repeat split; lra.
Qed.

(** The forward transform undoes the inverse wherever the inverse is
    defined: nonzero lightness and two nonzero divisors. *)
Lemma Luv_inverse_forward (L u v : R) (ill : chromaticity) :
  valid_illuminant ill ->
  L <> 0 ->
  u + 13 * L * white_u ill <> 0 ->
  v + 13 * L * white_v ill <> 0 ->
  XYZ_to_Luv (Luv_to_XYZ (L, u, v) ill) ill = (L, u, v).
Proof.
  intros Hill HL.
  destruct (valid_illuminant_white ill Hill) as (Xr & Zr & Hw & HXr & HZr).
  unfold white_u, white_v. rewrite Hw.
  rewrite (Luv_to_XYZ_eq _ _ _ _ _ _ _ Hw), (XYZ_to_Luv_eq _ _ _ _ _ _ _ Hw).
  replace (yr_of_L L / 1) with (yr_of_L L) by field.
  rewrite L_of_yr_of_L.
  pose proof (yr_of_L_nonzero L HL) as Hy.
  generalize dependent (yr_of_L L). intros y Hy.
  generalize (4 * Xr / (Xr + 15 * 1 + 3 * Zr)). intros u0.
  generalize (9 * 1 / (Xr + 15 * 1 + 3 * Zr)). intros v0.
  intros HA HB.
  assert (HLy : L * L * y <> 0)
    by (repeat apply Rmult_integral_contrapositive_currified; assumption).
  vec3_eq; try reflexivity; field;
    (repeat split; try assumption; try lra;
     match goal with
     | |- ?e <> 0 => replace e with (6084 * (L * L * y)) by ring; lra
     end).
Qed.

(** Whatever [Luv_to_XYZ] computes for X, its Z is X a - 5 Y: a result
    with X = 0 has Z = -5 Y. *)
Lemma Luv_to_XYZ_X_zero (Luv : vec3) (ill : chromaticity) :
  fst3 (Luv_to_XYZ Luv ill) = 0 ->
  thd3 (Luv_to_XYZ Luv ill) = -5 * snd3 (Luv_to_XYZ Luv ill).
Proof.
  destruct Luv as [[L u] v]. unfold Luv_to_XYZ.
  destruct (xy_to_XYZ ill) as [[Xr Yr] Zr]. cbn [fst3 snd3 thd3 fst snd].
  intros ->. ring.
Qed.

(** C6, as the code has it.  For a physically valid illuminant, in exact
    real arithmetic: XYZ -> Lab -> XYZ is the identity on every XYZ with
    nonnegative components and Lab -> XYZ -> Lab is the identity on every
    Lab; XYZ -> Luv -> XYZ is the identity on every XYZ with X > 0, Y > 0
    and Z >= 0, and Luv -> XYZ -> Luv is the identity on every Luv with
    L <> 0 whose two divisors u + 13 L u'r and v + 13 L v'r are nonzero.
    The statements cover both segments of each piecewise rule. *)
Theorem Lab_Luv_roundtrip (ill : chromaticity) :
  valid_illuminant ill ->
  (forall X Y Z, 0 <= X -> 0 <= Y -> 0 <= Z ->
     Lab_to_XYZ (XYZ_to_Lab (X, Y, Z) ill) ill = (X, Y, Z)) /\
  (forall L a b, XYZ_to_Lab (Lab_to_XYZ (L, a, b) ill) ill = (L, a, b)) /\
  (forall X Y Z, 0 < X -> 0 < Y -> 0 <= Z ->
     Luv_to_XYZ (XYZ_to_Luv (X, Y, Z) ill) ill = (X, Y, Z)) /\
  (forall L u v, L <> 0 ->
     u + 13 * L * white_u ill <> 0 ->
     v + 13 * L * white_v ill <> 0 ->
     XYZ_to_Luv (Luv_to_XYZ (L, u, v) ill) ill = (L, u, v)).
Proof.
  intros Hill. repeat split.
  - intros X Y Z _ _ _. apply Lab_forward_inverse; exact Hill.
  - intros L a b. apply Lab_inverse_forward; exact Hill.
  - intros X Y Z HX HY HZ. apply Luv_forward_inverse; assumption.
  - intros L u v HL Hu Hv. apply Luv_inverse_forward; assumption.
Qed.

Lemma valid_illuminant_third : valid_illuminant (1 / 3, 1 / 3).
Proof. unfold valid_illuminant. cbn [fst snd]. lra. Qed.

Lemma Lab_Luv_roundtrip_witness :
  (CIE_E < 1 / 2 /\
   Lab_to_XYZ (XYZ_to_Lab (1, 1 / 2, 1) (1 / 3, 1 / 3)) (1 / 3, 1 / 3)
   = (1, 1 / 2, 1)) /\
  (1 / 1000 <= CIE_E /\
   Lab_to_XYZ (XYZ_to_Lab (1, 1 / 1000, 0) (1 / 3, 1 / 3)) (1 / 3, 1 / 3)
   = (1, 1 / 1000, 0)) /\
  Luv_to_XYZ (XYZ_to_Luv (1, 1 / 2, 1) (1 / 3, 1 / 3)) (1 / 3, 1 / 3)
  = (1, 1 / 2, 1) /\
  Luv_to_XYZ (XYZ_to_Luv (1, 1 / 1000, 0) (1 / 3, 1 / 3)) (1 / 3, 1 / 3)
  = (1, 1 / 1000, 0).
Proof.
  destruct (Lab_Luv_roundtrip (1 / 3, 1 / 3) valid_illuminant_third)
    as (HLab & _ & HLuv & _).
  pose proof CIE_E_value as HE.
  repeat split; try lra; try (apply HLab; lra); apply HLuv; lra.
Defined.

(** C6 fails as stated for the Luv pair, on two faces of the nonnegative
    octant.  Zero luminance: (1, 0, 1) and (2, 0, 1) are both sent by
    [XYZ_to_Luv] to L = u = v = 0, without any division by zero, so
    whatever [Luv_to_XYZ] returns there cannot be within 1e-6 of both.
    Zero X: a result of [Luv_to_XYZ] with X = 0 has Z = -5 Y, so (0, 1, 1)
    does not come back either (the Python code divides by zero there and
    returns NaN for Z). *)
Lemma Luv_roundtrip_fails_on_octant_faces :
  valid_illuminant (1 / 3, 1 / 3) /\
  (1 + 15 * 0 + 3 * 1 <> 0 /\ 2 + 15 * 0 + 3 * 1 <> 0 /\
   ~ (vclose 1e-6
        (Luv_to_XYZ (XYZ_to_Luv (1, 0, 1) (1 / 3, 1 / 3)) (1 / 3, 1 / 3)) (1, 0, 1) /\
      vclose 1e-6
        (Luv_to_XYZ (XYZ_to_Luv (2, 0, 1) (1 / 3, 1 / 3)) (1 / 3, 1 / 3)) (2, 0, 1))) /\
  Luv_to_XYZ (XYZ_to_Luv (0, 1, 1) (1 / 3, 1 / 3)) (1 / 3, 1 / 3) <> (0, 1, 1).
Proof.
  split; [exact valid_illuminant_third|]. split.
  - split; [lra|]. split; [lra|].
    assert (Heq : XYZ_to_Luv (2, 0, 1) (1 / 3, 1 / 3)
                  = XYZ_to_Luv (1, 0, 1) (1 / 3, 1 / 3)).
    { pose proof CIE_E_pos as HE.
      rewrite !(XYZ_to_Luv_eq _ _ _ _ _ _ _
                  (xy_to_XYZ_nonzero (1 / 3) (1 / 3) ltac:(lra))).
      assert (HL : L_of_yr (0 / 1) = 0).
      { unfold L_of_yr. destruct (Rlt_dec CIE_E (0 / 1)) as [H | H]; [lra | field]. }
      rewrite HL. vec3_eq; ring. }
    rewrite Heq.
    destruct (Luv_to_XYZ (XYZ_to_Luv (1, 0, 1) (1 / 3, 1 / 3)) (1 / 3, 1 / 3))
      as [[X Y] Z].
    unfold vclose. intros ((H1 & _) & (H2 & _)).
    revert H1 H2. unfold Rabs.
    destruct (Rcase_abs (X - 1)), (Rcase_abs (X - 2)); lra.
  - intros Heq.
    pose proof (Luv_to_XYZ_X_zero (XYZ_to_Luv (0, 1, 1) (1 / 3, 1 / 3)) (1 / 3, 1 / 3))
      as HZ.
    rewrite Heq in HZ. cbn [fst3 snd3 thd3 fst snd] in HZ.
    specialize (HZ eq_refl). lra.
Qed.

(** At X = 0 the inverse is not defined: the divisor of the quotient
    52 L / (u + 13 L u'r) in [Luv_to_XYZ] is zero on the image of
    (0, 1, 1). *)
Lemma Luv_inverse_divisor_zero_at_X_zero :
  let ill := (1 / 3, 1 / 3) in
  let Luv := XYZ_to_Luv (0, 1, 1) ill in
  snd3 Luv + 13 * fst3 Luv * white_u ill = 0.
Proof.
  intros ill Luv. subst Luv ill. unfold white_u.
  rewrite !(XYZ_to_Luv_eq _ _ _ _ _ _ _ (xy_to_XYZ_nonzero (1 / 3) (1 / 3) ltac:(lra))).
  rewrite (xy_to_XYZ_nonzero (1 / 3) (1 / 3)) by lra.
  cbn [fst3 snd3 fst snd]. field.
Qed.

(** ** Polar forms *)

Lemma atan_pos (q : R) : 0 < q -> 0 < atan q.
Proof. intros H. rewrite <- atan_0. apply atan_increasing; exact H. Qed.

Lemma atan_nonpos (q : R) : q <= 0 -> atan q <= 0.
Proof.
  intros [H | ->].
  - left. rewrite <- atan_0. apply atan_increasing; exact H.
  - rewrite atan_0. lra.
Qed.

Lemma Rdiv_neg_neg (a b : R) : a < 0 -> b < 0 -> 0 < a / b.
Proof.
  intros Ha Hb. replace (a / b) with (- a / - b) by (field; lra).
  apply Rdiv_lt_0_compat; lra.
Qed.

Lemma Rdiv_nonneg_neg (a b : R) : 0 <= a -> b < 0 -> a / b <= 0.
Proof.
  intros [Ha | <-] Hb.
  - left. apply Rdiv_pos_neg; assumption.
  - unfold Rdiv. rewrite Rmult_0_l. lra.
Qed.

(** [math.atan2] returns an angle in (-PI, PI]. *)
Lemma atan2_range (y x : R) : - PI < atan2 y x <= PI.
Proof.
  pose proof PI_RGT_0 as Hpi. unfold atan2.
  destruct (Rlt_dec 0 x) as [Hx | Hx].
  - pose proof (atan_bound (y / x)). lra.
  - destruct (Rlt_dec x 0) as [Hx' | Hx'].
    + pose proof (atan_bound (y / x)) as Hb.
      destruct (Rle_dec 0 y) as [Hy | Hy].
      * pose proof (atan_nonpos _ (Rdiv_nonneg_neg _ _ Hy Hx')). lra.
      * assert (Hq : 0 < y / x) by (apply Rdiv_neg_neg; lra).
        apply atan_pos in Hq. lra.
    + destruct (Rlt_dec 0 y); [lra|]. destruct (Rlt_dec y 0); lra.
Qed.

(** The hue in degrees before it is wrapped. *)
Lemma hue_degrees_range (y x : R) : -180 < 180 * atan2 y x / PI <= 180.
Proof.
  pose proof PI_RGT_0 as Hpi. pose proof (atan2_range y x) as [Hlo Hhi].
  set (t := atan2 y x) in *.
  replace (180 * t / PI) with (180 * (t / PI)) by (field; lra).
  assert (Hq : -1 < t / PI <= 1).
  { split.
    - apply Rmult_lt_reg_r with PI; [exact Hpi|].
      replace (t / PI * PI) with t by (field; lra). lra.
    - apply Rmult_le_reg_r with PI; [exact Hpi|].
      replace (t / PI * PI) with t by (field; lra). lra. }
  lra.
Qed.

(** The wrapped hue lies in [0, 360). *)
Lemma hue_wrapped_range (y x : R) :
  let H := 180 * atan2 y x / PI in
  0 <= (if Rlt_dec H 0 then H + 360 else H) < 360.
Proof.
  intros H. pose proof (hue_degrees_range y x) as Hr. fold H in Hr.
  destruct (Rlt_dec H 0); lra.
Qed.

(** C7, as the code has it.  [Luv_to_LCHuv] and [Lab_to_LCHab] pass L
    through, return the chroma sqrt(axis1^2 + axis2^2) and the hue
    180 atan2(axis2, axis1)/PI, plus 360 when that is negative, so that in
    exact real arithmetic the hue lies in [0, 360); [LCHuv_to_Luv] and
    [LCHab_to_Lab] return L, C cos(H) and C sin(H) with H converted from
    degrees to radians. *)
Theorem polar_forms :
  (forall L u v,
     let h := 180 * atan2 v u / PI in
     let r := Luv_to_LCHuv (L, u, v) in
     fst3 r = L /\ snd3 r = sqrt (u ^ 2 + v ^ 2) /\
     (h < 0 -> thd3 r = h + 360) /\ (0 <= h -> thd3 r = h) /\
     0 <= thd3 r < 360) /\
  (forall L a b,
     let h := 180 * atan2 b a / PI in
     let r := Lab_to_LCHab (L, a, b) in
     fst3 r = L /\ snd3 r = sqrt (a ^ 2 + b ^ 2) /\
     (h < 0 -> thd3 r = h + 360) /\ (0 <= h -> thd3 r = h) /\
     0 <= thd3 r < 360) /\
  (forall L C H,
     LCHuv_to_Luv (L, C, H)
     = (L, C * cos (H * PI / 180), C * sin (H * PI / 180))) /\
  (forall L C H,
     LCHab_to_Lab (L, C, H)
     = (L, C * cos (H * PI / 180), C * sin (H * PI / 180))).
Proof.
  split; [|split; [|split; reflexivity]].
  - intros L u v h r. subst r. unfold Luv_to_LCHuv. fold h.
    cbn [fst3 snd3 thd3 fst snd].
    pose proof (hue_wrapped_range v u) as Hr. cbv zeta in Hr. fold h in Hr.
    repeat split; try apply Hr; intros Hh;
      destruct (Rlt_dec h 0); try reflexivity; lra.
  - intros L a b h r. subst r. unfold Lab_to_LCHab. fold h.
    cbn [fst3 snd3 thd3 fst snd].
    pose proof (hue_wrapped_range b a) as Hr. cbv zeta in Hr. fold h in Hr.
    repeat split; try apply Hr; intros Hh;
      destruct (Rlt_dec h 0); try reflexivity; lra.
Qed.

Lemma hue_degrees_negative (y x : R) :
  atan2 y x < 0 -> 180 * atan2 y x / PI < 0.
Proof.
  intros H. pose proof PI_RGT_0 as Hpi.
  replace (180 * atan2 y x / PI) with (- (180 * (- atan2 y x) / PI))
    by (field; lra).
  assert (0 < 180 * - atan2 y x / PI) by (apply Rdiv_lt_0_compat; lra).
  lra.
Qed.

Lemma atan2_right_half_plane (y x : R) : 0 < x -> atan2 y x = atan (y / x).
Proof.
  intros H. unfold atan2. destruct (Rlt_dec 0 x); [reflexivity | contradiction].
Qed.

Lemma polar_forms_witness :
  thd3 (Luv_to_LCHuv (100, 1, 0)) = 180 * atan2 0 1 / PI /\
  thd3 (Lab_to_LCHab (100, 1, 0)) = 180 * atan2 0 1 / PI /\
  thd3 (Luv_to_LCHuv (100, 1, -1)) = 180 * atan2 (-1) 1 / PI + 360 /\
  thd3 (Lab_to_LCHab (100, 1, -1)) = 180 * atan2 (-1) 1 / PI + 360.
Proof.
  assert (H0 : 0 <= 180 * atan2 0 1 / PI).
  { rewrite atan2_right_half_plane by lra.
    replace (0 / 1) with 0 by field. rewrite atan_0.
    unfold Rdiv. rewrite Rmult_0_r, Rmult_0_l. lra. }
  assert (H1 : 180 * atan2 (-1) 1 / PI < 0).
  { apply hue_degrees_negative. rewrite atan2_right_half_plane by lra.
    rewrite <- atan_0. apply atan_increasing. lra. }
  destruct polar_forms as (Huv & Hab & _).
  repeat split.
  - apply (Huv 100 1 0). exact H0.
  - apply (Hab 100 1 0). exact H0.
  - apply (Huv 100 1 (-1)). exact H1.
  - apply (Hab 100 1 (-1)). exact H1.
Defined.

(** C7 fails as stated on the doubles the code computes with: the hue can
    be exactly 360.  For (L, u, v) = (L, 1, -2^-53) the angle
    [math.atan2 (v, u)] is -2^-53; H = 180 theta / pi is about -6.4e-15,
    negative, and [H += 360.] rounds to 360.0, which is not below 360. *)
Lemma Luv_hue_reaches_360_on_binary64 :
  (180 * -0x1p-53 / pi_b64 <? 0)%float = true /\
  hue_b64 (-0x1p-53)%float = 360%float /\
  (hue_b64 (-0x1p-53) <? 360)%float = false.
Proof. repeat split; vm_compute; reflexivity. Qed.

(** C10, as the code has it.  In exact real arithmetic the outputs of
    [Luv_to_LCHuv] and [Lab_to_LCHab] lie in the canonical polar domain:
    the chroma is a square root, hence nonnegative, and the hue lies in
    [0, 360). *)
Theorem LCH_canonical_domain (v : vec3) :
  (0 <= snd3 (Luv_to_LCHuv v) /\ 0 <= thd3 (Luv_to_LCHuv v) < 360) /\
  (0 <= snd3 (Lab_to_LCHab v) /\ 0 <= thd3 (Lab_to_LCHab v) < 360).
Proof.
  destruct v as [[L a] b]. unfold Luv_to_LCHuv, Lab_to_LCHab.
  cbn [snd3 thd3 fst snd].
  pose proof (hue_wrapped_range b a) as Hr. cbv zeta in Hr.
  repeat split; try apply sqrt_pos; apply Hr.
Qed.

(** C10 fails as stated on the doubles the code computes with: an output
    can leave the canonical domain through the hue.  For
    (L, a, b) = (L, 1, -2^-60), where [math.atan2 (b, a)] is -2^-60, the
    chroma is 1, nonnegative as claimed, and the hue is exactly 360, not
    in [0, 360). *)
Lemma LCH_hue_leaves_domain_on_binary64 :
  chroma_b64 1 (-0x1p-60)%float = 1%float /\
  (0 <=? chroma_b64 1 (-0x1p-60))%float = true /\
  hue_b64 (-0x1p-60)%float = 360%float /\
  (hue_b64 (-0x1p-60) <? 360)%float = false.
Proof. repeat split; vm_compute; reflexivity. Qed.

(** ** The polar forms invert each other *)

Lemma sqrt_one_plus_sqr_pos (q : R) : 0 < sqrt (1 + q²).
Proof. apply sqrt_lt_R0. pose proof (Rle_0_sqr q). lra. Qed.

Lemma chroma_x_pos (x y : R) :
  0 < x -> sqrt (x ^ 2 + y ^ 2) = x * sqrt (1 + (y / x)²).
Proof.
  intros Hx.
  replace (x ^ 2 + y ^ 2) with (x * x * (1 + (y / x)²))
    by (unfold Rsqr; field; lra).
  rewrite sqrt_mult_alt by nra. rewrite sqrt_square by lra. reflexivity.
Qed.

Lemma chroma_x_neg (x y : R) :
  x < 0 -> sqrt (x ^ 2 + y ^ 2) = - x * sqrt (1 + (y / x)²).
Proof.
  intros Hx.
  replace (x ^ 2 + y ^ 2) with (- x * - x * (1 + (y / x)²))
    by (unfold Rsqr; field; lra).
  rewrite sqrt_mult_alt by nra. rewrite sqrt_square by lra. reflexivity.
Qed.

(** [atan2 y x] is the polar angle of the point (x, y): with the chroma
    as radius, its cosine and sine give the point back. *)
Lemma atan2_polar (y x : R) :
  sqrt (x ^ 2 + y ^ 2) * cos (atan2 y x) = x /\
  sqrt (x ^ 2 + y ^ 2) * sin (atan2 y x) = y.
Proof.
  unfold atan2.
  destruct (Rlt_dec 0 x) as [Hx | Hx].
  - pose proof (sqrt_one_plus_sqr_pos (y / x)) as Hs.
    rewrite chroma_x_pos, cos_atan, sin_atan by exact Hx.
    split; field; lra.
  - destruct (Rlt_dec x 0) as [Hx' | Hx'].
    + pose proof (sqrt_one_plus_sqr_pos (y / x)) as Hs.
      rewrite chroma_x_neg by exact Hx'.
      destruct (Rle_dec 0 y) as [Hy | Hy].
      * rewrite neg_cos, neg_sin, cos_atan, sin_atan. split; field; lra.
      * replace (atan (y / x) - PI) with (- (PI - atan (y / x))) by ring.
        rewrite cos_neg, sin_neg, Rtrigo_facts.cos_pi_minus.
        replace (PI - atan (y / x)) with (- atan (y / x) + PI) by ring.
        rewrite neg_sin, sin_neg, cos_atan, sin_atan. split; field; lra.
    + assert (x = 0) by lra. subst x.
      replace (0 ^ 2 + y ^ 2) with (y * y) by ring.
      destruct (Rlt_dec 0 y) as [Hy | Hy].
      * rewrite sqrt_square, cos_PI2, sin_PI2 by lra. split; ring.
      * destruct (Rlt_dec y 0) as [Hy' | Hy'].
        -- replace (y * y) with (- y * - y) by ring.
           rewrite sqrt_square, cos_neg, sin_neg, cos_PI2, sin_PI2 by lra.
           split; ring.
        -- assert (y = 0) by lra. subst y.
           rewrite Rmult_0_l, sqrt_0. split; ring.
Qed.

Lemma cos_2PI_shift (t : R) : cos (t + 2 * PI) = cos t.
Proof.
  replace (t + 2 * PI) with (t + PI + PI) by ring.
  rewrite !neg_cos. ring.
Qed.

Lemma sin_2PI_shift (t : R) : sin (t + 2 * PI) = sin t.
Proof.
  replace (t + 2 * PI) with (t + PI + PI) by ring.
  rewrite !neg_sin. ring.
Qed.

(** The wrapped hue, back in radians, is the angle up to a full turn. *)
Lemma hue_wrapped_radians (y x : R) :
  let H := 180 * atan2 y x / PI in
  let H' := if Rlt_dec H 0 then H + 360 else H in
  cos (radians H') = cos (atan2 y x) /\ sin (radians H') = sin (atan2 y x).
Proof.
  intros H H'. subst H' H. pose proof PI_RGT_0 as Hpi. unfold radians.
  destruct (Rlt_dec (180 * atan2 y x / PI) 0).
  - replace ((180 * atan2 y x / PI + 360) * PI / 180)
      with (atan2 y x + 2 * PI) by (field; lra).
    rewrite cos_2PI_shift, sin_2PI_shift. split; reflexivity.
  - replace (180 * atan2 y x / PI * PI / 180) with (atan2 y x) by (field; lra).
    split; reflexivity.
Qed.

(** Luv -> LCHuv -> Luv and Lab -> LCHab -> Lab are the identity. *)
Lemma polar_inverse_forward (L a b : R) :
  LCHuv_to_Luv (Luv_to_LCHuv (L, a, b)) = (L, a, b) /\
  LCHab_to_Lab (Lab_to_LCHab (L, a, b)) = (L, a, b).
Proof.
  unfold LCHuv_to_Luv, Luv_to_LCHuv, LCHab_to_Lab, Lab_to_LCHab.
  destruct (hue_wrapped_radians b a) as [Hc Hs]. cbv zeta in Hc, Hs.
  rewrite Hc, Hs. destruct (atan2_polar b a) as [Hx Hy].
  rewrite Hx, Hy. split; reflexivity.
Qed.

(** ** DCDM transfer functions *)

Lemma fpow_pos (x y : R) : 0 < x -> fpow x y = Rpower x y.
Proof. intros H. unfold fpow. destruct (Rlt_dec 0 x); [reflexivity | contradiction]. Qed.

Lemma fpow_0 (y : R) : fpow 0 y = 0.
Proof. unfold fpow. destruct (Rlt_dec 0 0); [lra | reflexivity]. Qed.

Lemma Rpower_pos (x y : R) : 0 < Rpower x y.
Proof. unfold Rpower. apply exp_pos. Qed.

(** Decoding undoes encoding on every nonnegative value. *)
Lemma fpow_DCDM_inverse (w : R) : 0 <= w -> fpow (fpow w (1 / 2.6)) 2.6 = w.
Proof.
  intros [Hw | <-].
  - rewrite (fpow_pos w) by exact Hw.
    rewrite fpow_pos by apply Rpower_pos.
    rewrite Rpower_mult. replace (1 / 2.6 * 2.6) with 1 by lra.
    apply Rpower_1; exact Hw.
  - rewrite !fpow_0. reflexivity.
Qed.

Lemma eotf_oetf_DCDM (v : R) (int : bool) :
  0 <= v -> eotf_DCDM (oetf_DCDM v int) int = v.
Proof.
  intros Hv. unfold eotf_DCDM, oetf_DCDM.
  assert (Hw : 0 <= v / 52.37) by (apply Rmult_le_pos; lra).
  destruct int.
  - replace (fpow (v / 52.37) (1 / 2.6) * 4095 / 4095)
      with (fpow (v / 52.37) (1 / 2.6)) by (field; lra).
    rewrite fpow_DCDM_inverse by exact Hw. field; lra.
  - rewrite fpow_DCDM_inverse by exact Hw. field; lra.
Qed.

(** C8. For v in [0, 1], decoding the encoded value gives v back, in
    float mode and in integer-code-value mode; the encoder is
    (v/52.37)^(1/2.6), times 4095 in integer mode, and the decoder is
    52.37 v'^2.6, after a division by 4095 in integer mode.  Neither
    clamps: a value above 52.37 encodes above 1 and a signal above 1
    decodes above 52.37. *)
Theorem DCDM_roundtrip :
  (forall v, 0 <= v <= 1 ->
     eotf_DCDM (oetf_DCDM v false) false = v /\
     eotf_DCDM (oetf_DCDM v true) true = v) /\
  (forall v, 0 < v ->
     oetf_DCDM v false = Rpower (v / 52.37) (1 / 2.6) /\
     oetf_DCDM v true = Rpower (v / 52.37) (1 / 2.6) * 4095) /\
  (forall v', 0 < v' ->
     eotf_DCDM v' false = 52.37 * Rpower v' 2.6 /\
     eotf_DCDM v' true = 52.37 * Rpower (v' / 4095) 2.6) /\
  (forall v, 52.37 < v -> 1 < oetf_DCDM v false) /\
  (forall v', 1 < v' -> 52.37 < eotf_DCDM v' false).
Proof.
  split; [|split; [|split; [|split]]].
  - intros v [H0 H1]. split; apply eotf_oetf_DCDM; exact H0.
  - intros v Hv. unfold oetf_DCDM.
    rewrite fpow_pos by (apply Rdiv_lt_0_compat; lra). split; reflexivity.
  - intros v' Hv. unfold eotf_DCDM.
    rewrite (fpow_pos v') by exact Hv.
    rewrite fpow_pos by (apply Rdiv_lt_0_compat; lra). split; reflexivity.
  - intros v Hv. unfold oetf_DCDM.
    assert (Hq : 1 < v / 52.37).
    { apply Rmult_lt_reg_r with 52.37; [lra|].
      replace (v / 52.37 * 52.37) with v by (field; lra). lra. }
    rewrite fpow_pos by lra.
    rewrite <- (Rpower_O (v / 52.37)) at 1 by lra.
    apply Rpower_lt; lra.
  - intros v' Hv. unfold eotf_DCDM. rewrite fpow_pos by lra.
    assert (H1 : 1 < Rpower v' 2.6).
    { rewrite <- (Rpower_O v') at 1 by lra. apply Rpower_lt; lra. }
    lra.
Qed.

Lemma DCDM_roundtrip_witness :
  eotf_DCDM (oetf_DCDM (1 / 2) false) false = 1 / 2 /\
  eotf_DCDM (oetf_DCDM (1 / 2) true) true = 1 / 2.
Proof.
  destruct DCDM_roundtrip as (H & _).
  apply (H (1 / 2)). lra.
Defined.

(** * Further properties *)

(** ** Chromaticity layer: [xy_to_XYZ] and [XYZ_to_xy] *)

Lemma chromaticity_eta (c : chromaticity) : (fst c, snd c) = c.
Proof. destruct c; reflexivity. Qed.

Lemma XYZ_to_xy_nonzero (X Y Z : R) (ill : chromaticity) :
  ~ (X = 0 /\ Y = 0 /\ Z = 0) ->
  XYZ_to_xy (X, Y, Z) ill = (X / (X + Y + Z), Y / (X + Y + Z)).
Proof.
  intros H. unfold XYZ_to_xy. rewrite (XYZ_to_xyY_nonzero _ _ _ _ H). reflexivity.
Qed.

(** X1. A chromaticity with y <> 0 survives the trip through XYZ:
    [xy_to_XYZ] gives it luminance 1, [XYZ_to_xyY] returns (x, y, 1) and
    [XYZ_to_xy] returns (x, y), whatever the illuminant. *)
Theorem xy_XYZ_roundtrip (x y : R) (ill : chromaticity) :
  y <> 0 ->
  XYZ_to_xyY (xy_to_XYZ (x, y)) ill = (x, y, 1) /\
  XYZ_to_xy (xy_to_XYZ (x, y)) ill = (x, y).
Proof.
  intros Hy. rewrite (xy_to_XYZ_nonzero _ _ Hy).
  assert (H1 : ~ (x / y = 0 /\ 1 = 0 /\ (1 - x - y) / y = 0))
    by (intros (_ & H & _); lra).
  assert (HS : x / y + 1 + (1 - x - y) / y = / y) by (field; exact Hy).
  assert (Hi : / y <> 0) by (apply Rinv_neq_0_compat; exact Hy).
  rewrite (XYZ_to_xy_nonzero _ _ _ _ H1), (XYZ_to_xyY_nonzero _ _ _ _ H1), HS.
  split; [vec3_eq | apply injective_projections; cbn [fst snd]];
    try reflexivity; field; exact Hy.
Qed.

Lemma xy_XYZ_roundtrip_witness :
  XYZ_to_xyY (xy_to_XYZ (1 / 4, 1 / 4)) (1 / 3, 1 / 3) = (1 / 4, 1 / 4, 1) /\
  XYZ_to_xy (xy_to_XYZ (1 / 4, 1 / 4)) (1 / 3, 1 / 3) = (1 / 4, 1 / 4).
Proof. apply xy_XYZ_roundtrip. lra. Defined.

(** X2. Chromaticity does not depend on the scale of the stimulus: for
    k <> 0 and X+Y+Z <> 0, [XYZ_to_xy] of k XYZ is [XYZ_to_xy] of XYZ. *)
Theorem XYZ_to_xy_scale_invariant (k X Y Z : R) (ill : chromaticity) :
  k <> 0 -> X + Y + Z <> 0 ->
  XYZ_to_xy (vscale k (X, Y, Z)) ill = XYZ_to_xy (X, Y, Z) ill.
Proof.
  intros Hk HS. unfold vscale.
  assert (HkS : k * X + k * Y + k * Z <> 0).
  { replace (k * X + k * Y + k * Z) with (k * (X + Y + Z)) by ring.
    apply Rmult_integral_contrapositive_currified; assumption. }
  rewrite !XYZ_to_xy_nonzero.
  - apply injective_projections; cbn [fst snd]; field; split; assumption.
  - intros (HX & HY & HZ). apply HS. lra.
  - intros (HX & HY & HZ). apply HS.
    apply Rmult_eq_reg_l with k; [|exact Hk]. lra.
Qed.

Lemma XYZ_to_xy_scale_invariant_witness :
  XYZ_to_xy (vscale 100 (1, 2, 3)) (1 / 3, 1 / 3) = XYZ_to_xy (1, 2, 3) (1 / 3, 1 / 3).
Proof. apply XYZ_to_xy_scale_invariant; lra. Defined.

(** X3. For a stimulus with nonnegative components and a positive sum,
    the chromaticity coordinates returned by [XYZ_to_xyY] lie in the
    chromaticity triangle: 0 <= x <= 1, 0 <= y <= 1 and x + y <= 1, the
    remainder 1 - x - y being Z/(X+Y+Z). *)
Theorem XYZ_to_xyY_in_triangle (X Y Z : R) (ill : chromaticity) :
  0 <= X -> 0 <= Y -> 0 <= Z -> 0 < X + Y + Z ->
  let x := fst3 (XYZ_to_xyY (X, Y, Z) ill) in
  let y := snd3 (XYZ_to_xyY (X, Y, Z) ill) in
  0 <= x <= 1 /\ 0 <= y <= 1 /\ x + y <= 1 /\ 1 - x - y = Z / (X + Y + Z).
Proof.
  intros HX HY HZ HS x y. subst x y.
  rewrite XYZ_to_xyY_nonzero by (intros (H1 & H2 & H3); lra).
  cbn [fst3 snd3 fst snd].
  assert (Hi : 0 < / (X + Y + Z)) by (apply Rinv_0_lt_compat; exact HS).
  assert (Hx : 0 <= X / (X + Y + Z)) by (apply Rmult_le_pos; lra).
  assert (Hy : 0 <= Y / (X + Y + Z)) by (apply Rmult_le_pos; lra).
  assert (Hz : 0 <= Z / (X + Y + Z)) by (apply Rmult_le_pos; lra).
  assert (Hsum : X / (X + Y + Z) + Y / (X + Y + Z) + Z / (X + Y + Z) = 1)
    by (field; lra).
  repeat split; lra.
Qed.

Lemma XYZ_to_xyY_in_triangle_witness :
  let x := fst3 (XYZ_to_xyY (1, 2, 3) (1 / 3, 1 / 3)) in
  let y := snd3 (XYZ_to_xyY (1, 2, 3) (1 / 3, 1 / 3)) in
  0 <= x <= 1 /\ 0 <= y <= 1 /\ x + y <= 1 /\ 1 - x - y = 3 / (1 + 2 + 3).
Proof. apply XYZ_to_xyY_in_triangle; lra. Defined.

(** X4. A chromaticity with y = 0 does not survive the trip through XYZ:
    [xy_to_XYZ] sends it to the zero vector, and [XYZ_to_xy] then answers
    with the chromaticity of the illuminant it is given. *)
Theorem xy_XYZ_degenerate (x : R) (ill : chromaticity) :
  xy_to_XYZ (x, 0) = (0, 0, 0) /\
  XYZ_to_xy (xy_to_XYZ (x, 0)) ill = ill.
Proof.
  assert (H : xy_to_XYZ (x, 0) = (0, 0, 0)).
  { unfold xy_to_XYZ. cbn [fst snd]. apply xyY_to_XYZ_zero. }
  split; [exact H|].
  rewrite H. unfold XYZ_to_xy. rewrite XYZ_to_xyY_zero. apply chromaticity_eta.
Qed.

(** ** uv chromaticities of the UCS and Luv branches *)

(** Close a goal [e <> 0] where [e] is a multiple of a nonzero hypothesis. *)
Ltac nonzero_by H := let E := fresh in intros E; apply H; lra.

(** Discharge the side conditions [field] leaves, each a nonzero divisor
    that is a hypothesis or a multiple of one. *)
Ltac divisors_nonzero :=
  repeat split;
  first [ assumption
        | match goal with
          | H : _ <> 0 |- _ <> 0 => solve [nonzero_by H]
          end ].

Lemma UCS_to_uv_of_XYZ_eq (X Y Z : R) :
  X + 15 * Y + 3 * Z <> 0 ->
  UCS_to_uv (XYZ_to_UCS (X, Y, Z))
  = (4 * X / (X + 15 * Y + 3 * Z), 6 * Y / (X + 15 * Y + 3 * Z)).
Proof.
  intros HD. unfold UCS_to_uv, XYZ_to_UCS.
  assert (HS : 2 / 3 * X + Y + 1 / 2 * (- X + 3 * Y + Z) <> 0) by nonzero_by HD.
  apply injective_projections; cbn [fst snd]; field; divisors_nonzero.
Qed.

(** X5. The CIE 1960 chromaticity of a stimulus, computed through
    [XYZ_to_UCS] and [UCS_to_uv], is u = 4X/(X+15Y+3Z) and
    v = 6Y/(X+15Y+3Z) whenever X+15Y+3Z <> 0. *)
Theorem UCS_to_uv_of_XYZ (X Y Z : R) :
  X + 15 * Y + 3 * Z <> 0 ->
  UCS_to_uv (XYZ_to_UCS (X, Y, Z))
  = (4 * X / (X + 15 * Y + 3 * Z), 6 * Y / (X + 15 * Y + 3 * Z)).
Proof. exact (UCS_to_uv_of_XYZ_eq X Y Z). Qed.

Lemma UCS_to_uv_of_XYZ_witness :
  UCS_to_uv (XYZ_to_UCS (1, 1, 1))
  = (4 * 1 / (1 + 15 * 1 + 3 * 1), 6 * 1 / (1 + 15 * 1 + 3 * 1)).
Proof. apply UCS_to_uv_of_XYZ. lra. Defined.

(** X6. [UCS_uv_to_xy] undoes the projection to CIE 1960 uv: applied to
    the uv chromaticity of a stimulus with X+15Y+3Z <> 0 and X+Y+Z <> 0 it
    returns the xy chromaticity that [XYZ_to_xy] computes. *)
Theorem UCS_uv_to_xy_recovers_xy (X Y Z : R) (ill : chromaticity) :
  X + 15 * Y + 3 * Z <> 0 -> X + Y + Z <> 0 ->
  UCS_uv_to_xy (UCS_to_uv (XYZ_to_UCS (X, Y, Z))) = XYZ_to_xy (X, Y, Z) ill.
Proof.
  intros HD HS. unfold UCS_to_uv, XYZ_to_UCS, UCS_uv_to_xy. cbn [fst snd].
  rewrite XYZ_to_xy_nonzero by (intros (H1 & H2 & H3); apply HS; lra).
  apply injective_projections; cbn [fst snd]; field; divisors_nonzero.
Qed.

Lemma UCS_uv_to_xy_recovers_xy_witness :
  UCS_uv_to_xy (UCS_to_uv (XYZ_to_UCS (1, 2, 3))) = XYZ_to_xy (1, 2, 3) (1 / 3, 1 / 3).
Proof. apply UCS_uv_to_xy_recovers_xy; lra. Defined.

(** X7. [Luv_uv_to_xy] undoes the projection to CIE 1976 u'v': applied to
    the result of [Luv_to_uv] it returns the xy chromaticity of the XYZ
    vector that [Luv_to_XYZ] recovers, whenever that vector has
    X+15Y+3Z <> 0 and X+Y+Z <> 0. *)
Theorem Luv_uv_to_xy_recovers_xy (Luv : vec3) (ill ill' : chromaticity) :
  let XYZ := Luv_to_XYZ Luv ill in
  fst3 XYZ + 15 * snd3 XYZ + 3 * thd3 XYZ <> 0 ->
  fst3 XYZ + snd3 XYZ + thd3 XYZ <> 0 ->
  Luv_uv_to_xy (Luv_to_uv Luv ill) = XYZ_to_xy XYZ ill'.
Proof.
  intros XYZ. subst XYZ. unfold Luv_to_uv.
  destruct (Luv_to_XYZ Luv ill) as [[X Y] Z]. cbn [fst3 snd3 thd3 fst snd].
  intros HD HS. unfold Luv_uv_to_xy. cbn [fst snd].
  rewrite XYZ_to_xy_nonzero by (intros (H1 & H2 & H3); apply HS; lra).
  apply injective_projections; cbn [fst snd]; field; divisors_nonzero.
Qed.

Lemma Luv_uv_to_xy_recovers_xy_witness :
  Luv_uv_to_xy (Luv_to_uv (XYZ_to_Luv (1, 1 / 2, 1) (1 / 3, 1 / 3)) (1 / 3, 1 / 3))
  = XYZ_to_xy (Luv_to_XYZ (XYZ_to_Luv (1, 1 / 2, 1) (1 / 3, 1 / 3)) (1 / 3, 1 / 3))
      (1 / 3, 1 / 3).
Proof.
  apply Luv_uv_to_xy_recovers_xy;
    rewrite Luv_forward_inverse by (try exact valid_illuminant_third; lra);
    cbn [fst3 snd3 thd3 fst snd]; lra.
Defined.

(** X8. [Luv_to_uv] goes through [Luv_to_XYZ], yet for a valid illuminant
    its result is the closed form u' = u/(13 L) + u'r, v' = v/(13 L) + v'r
    (u'r, v'r the chromaticity of the white point), on every Luv vector
    with L <> 0 whose divisors u + 13 L u'r and v + 13 L v'r are
    nonzero. *)
Theorem Luv_to_uv_closed_form (L u v : R) (ill : chromaticity) :
  valid_illuminant ill ->
  L <> 0 ->
  u + 13 * L * white_u ill <> 0 ->
  v + 13 * L * white_v ill <> 0 ->
  Luv_to_uv (L, u, v) ill
  = (u / (13 * L) + white_u ill, v / (13 * L) + white_v ill).
Proof.
  intros Hill HL.
  destruct (valid_illuminant_white ill Hill) as (Xr & Zr & Hw & HXr & HZr).
  unfold Luv_to_uv, white_u, white_v. rewrite Hw.
  rewrite (Luv_to_XYZ_eq _ _ _ _ _ _ _ Hw).
  pose proof (yr_of_L_nonzero L HL) as Hy.
  generalize dependent (yr_of_L L). intros y Hy.
  generalize (4 * Xr / (Xr + 15 * 1 + 3 * Zr)). intros u0.
  generalize (9 * 1 / (Xr + 15 * 1 + 3 * Zr)). intros v0.
  intros HA HB.
  assert (HLy : L * L * y <> 0)
    by (repeat apply Rmult_integral_contrapositive_currified; assumption).
  apply injective_projections; cbn [fst snd]; field;
    (repeat split; try assumption; try lra;
     match goal with
     | |- ?e <> 0 => replace e with (6084 * (L * L * y)) by ring; lra
     end).
Qed.

Lemma white_uv_third :
  white_u (1 / 3, 1 / 3) = 4 / 19 /\ white_v (1 / 3, 1 / 3) = 9 / 19.
Proof.
  unfold white_u, white_v. rewrite xy_to_XYZ_nonzero by lra. split; field.
Qed.

Lemma Luv_to_uv_closed_form_witness :
  Luv_to_uv (50, 10, 20) (1 / 3, 1 / 3)
  = (10 / (13 * 50) + white_u (1 / 3, 1 / 3),
     20 / (13 * 50) + white_v (1 / 3, 1 / 3)).
Proof.
  destruct white_uv_third as [Hu Hv].
  apply Luv_to_uv_closed_form;
    [exact valid_illuminant_third | lra | rewrite Hu; lra | rewrite Hv; lra].
Defined.

(** X9. For a valid illuminant and a stimulus with X > 0, Y > 0 and
    Z >= 0, the u'v' chromaticity read back from its Luv form is
    4X/(X+15Y+3Z), 9Y/(X+15Y+3Z), independent of the illuminant; it is the
    CIE 1960 uv chromaticity of [UCS_to_uv] with v scaled by 3/2. *)
Theorem Luv_to_uv_of_XYZ (X Y Z : R) (ill : chromaticity) :
  valid_illuminant ill ->
  0 < X -> 0 < Y -> 0 <= Z ->
  Luv_to_uv (XYZ_to_Luv (X, Y, Z) ill) ill
  = (4 * X / (X + 15 * Y + 3 * Z), 9 * Y / (X + 15 * Y + 3 * Z)) /\
  fst (Luv_to_uv (XYZ_to_Luv (X, Y, Z) ill) ill)
  = fst (UCS_to_uv (XYZ_to_UCS (X, Y, Z))) /\
  snd (Luv_to_uv (XYZ_to_Luv (X, Y, Z) ill) ill)
  = 3 / 2 * snd (UCS_to_uv (XYZ_to_UCS (X, Y, Z))).
Proof.
  intros Hill HX HY HZ.
  assert (HD : X + 15 * Y + 3 * Z <> 0) by lra.
  assert (H : Luv_to_uv (XYZ_to_Luv (X, Y, Z) ill) ill
              = (4 * X / (X + 15 * Y + 3 * Z), 9 * Y / (X + 15 * Y + 3 * Z))).
  { unfold Luv_to_uv. rewrite Luv_forward_inverse by assumption. reflexivity. }
  rewrite H, (UCS_to_uv_of_XYZ_eq X Y Z HD). cbn [fst snd].
  repeat split; field; exact HD.
Qed.

Lemma Luv_to_uv_of_XYZ_witness :
  Luv_to_uv (XYZ_to_Luv (1, 1 / 2, 1) (1 / 3, 1 / 3)) (1 / 3, 1 / 3)
  = (4 * 1 / (1 + 15 * (1 / 2) + 3 * 1), 9 * (1 / 2) / (1 + 15 * (1 / 2) + 3 * 1)).
Proof.
  apply (Luv_to_uv_of_XYZ 1 (1 / 2) 1 (1 / 3, 1 / 3));
    [exact valid_illuminant_third | lra | lra | lra].
Defined.

(** ** Lightness and the neutral axis *)

Lemma L_of_yr_increasing (y1 y2 : R) : y1 < y2 -> L_of_yr y1 < L_of_yr y2.
Proof.
  intros H. pose proof CIE_E_pos as HE. pose proof CIE_K_pos as HK.
  pose proof CIE_K_times_E as HKE. unfold L_of_yr.
  destruct (Rlt_dec CIE_E y1) as [H1 | H1], (Rlt_dec CIE_E y2) as [H2 | H2].
  - assert (Hc : fpow y1 (1 / 3) < fpow y2 (1 / 3)).
    { apply cube_lt_inv. rewrite !fpow_third_cubed by lra. exact H. }
    lra.
  - lra.
  - apply fpow_third_above in H2. nra.
  - apply Rmult_lt_compat_l; assumption.
Qed.

Lemma L_of_yr_0 : L_of_yr 0 = 0.
Proof.
  pose proof CIE_E_pos as HE. unfold L_of_yr.
  destruct (Rlt_dec CIE_E 0); [lra | ring].
Qed.

Lemma L_of_yr_1 : L_of_yr 1 = 100.
Proof.
  unfold L_of_yr. destruct (Rlt_dec CIE_E 1) as [_ | H].
  - replace 1 with (1 ^ 3) at 1 by ring.
    rewrite fpow_third_of_cube by lra. ring.
  - exfalso. apply H. rewrite CIE_E_value. lra.
Qed.

Lemma XYZ_to_Lab_lightness (X Y Z : R) (ill : chromaticity) :
  fst3 (XYZ_to_Lab (X, Y, Z) ill) = L_of_yr (Y / snd3 (xy_to_XYZ ill)).
Proof.
  destruct (xy_to_XYZ ill) as [[Xr Yr] Zr] eqn:Hw.
  rewrite (XYZ_to_Lab_eq _ _ _ _ _ _ _ Hw), L_of_yr_Lab_f. reflexivity.
Qed.

Lemma XYZ_to_Luv_lightness (X Y Z : R) (ill : chromaticity) :
  fst3 (XYZ_to_Luv (X, Y, Z) ill) = L_of_yr (Y / snd3 (xy_to_XYZ ill)).
Proof.
  destruct (xy_to_XYZ ill) as [[Xr Yr] Zr] eqn:Hw.
  rewrite (XYZ_to_Luv_eq _ _ _ _ _ _ _ Hw). reflexivity.
Qed.

(** X10. Lab and Luv share their lightness: for every stimulus and every
    illuminant the first component of [XYZ_to_Lab] equals the first
    component of [XYZ_to_Luv], although one computes 116 f(yr) - 16 and
    the other branches on yr directly. *)
Theorem Lab_Luv_same_lightness (XYZ : vec3) (ill : chromaticity) :
  fst3 (XYZ_to_Lab XYZ ill) = fst3 (XYZ_to_Luv XYZ ill).
Proof.
  destruct XYZ as [[X Y] Z].
  rewrite XYZ_to_Lab_lightness, XYZ_to_Luv_lightness. reflexivity.
Qed.

(** X11. For a valid illuminant the lightness of [XYZ_to_Lab] and
    [XYZ_to_Luv] depends on Y alone and is strictly increasing in it,
    across the junction of the two segments; it is 0 at Y = 0 and 100 at
    Y = 1, so luminances in [0, 1] have lightness in [0, 100]. *)
Theorem lightness_increasing (ill : chromaticity) :
  valid_illuminant ill ->
  (forall X1 Y1 Z1 X2 Y2 Z2, Y1 < Y2 ->
     fst3 (XYZ_to_Lab (X1, Y1, Z1) ill) < fst3 (XYZ_to_Lab (X2, Y2, Z2) ill) /\
     fst3 (XYZ_to_Luv (X1, Y1, Z1) ill) < fst3 (XYZ_to_Luv (X2, Y2, Z2) ill)) /\
  (forall X Y Z, 0 <= Y <= 1 ->
     0 <= fst3 (XYZ_to_Lab (X, Y, Z) ill) <= 100 /\
     0 <= fst3 (XYZ_to_Luv (X, Y, Z) ill) <= 100).
Proof.
  intros Hill.
  destruct (valid_illuminant_white ill Hill) as (Xr & Zr & Hw & HXr & HZr).
  assert (HL : forall X Y Z, fst3 (XYZ_to_Lab (X, Y, Z) ill) = L_of_yr Y).
  { intros. rewrite XYZ_to_Lab_lightness, Hw. cbn [snd3 fst snd].
    f_equal. field. }
  assert (HL' : forall X Y Z, fst3 (XYZ_to_Luv (X, Y, Z) ill) = L_of_yr Y).
  { intros. rewrite XYZ_to_Luv_lightness, Hw. cbn [snd3 fst snd].
    f_equal. field. }
  split.
  - intros X1 Y1 Z1 X2 Y2 Z2 HY. rewrite !HL, !HL'.
    split; apply L_of_yr_increasing; exact HY.
  - intros X Y Z [H0 H1]. rewrite HL, HL'.
    assert (Hlo : 0 <= L_of_yr Y).
    { destruct H0 as [H0 | <-]; [|rewrite L_of_yr_0; lra].
      rewrite <- L_of_yr_0. left. apply L_of_yr_increasing; exact H0. }
    assert (Hhi : L_of_yr Y <= 100).
    { destruct H1 as [H1 | ->]; [|rewrite L_of_yr_1; lra].
      rewrite <- L_of_yr_1. left. apply L_of_yr_increasing; exact H1. }
    lra.
Qed.

Lemma lightness_increasing_witness :
  fst3 (XYZ_to_Lab (1, 1 / 1000, 1) (1 / 3, 1 / 3))
  < fst3 (XYZ_to_Lab (0, 1 / 2, 5) (1 / 3, 1 / 3)) /\
  fst3 (XYZ_to_Luv (1, 1 / 1000, 1) (1 / 3, 1 / 3))
  < fst3 (XYZ_to_Luv (0, 1 / 2, 5) (1 / 3, 1 / 3)).
Proof.
  destruct (lightness_increasing (1 / 3, 1 / 3) valid_illuminant_third) as [H _].
  apply H. lra.
Defined.

(** X12. The neutral axis.  For a valid illuminant, a stimulus that is a
    positive multiple k of the white point has a = b = 0 in Lab and
    u = v = 0 in Luv, and the white point itself (k = 1) is (100, 0, 0) in
    both spaces. *)
Theorem neutral_axis_Lab_Luv (k : R) (ill : chromaticity) :
  valid_illuminant ill -> 0 < k ->
  let grey := vscale k (xy_to_XYZ ill) in
  (snd3 (XYZ_to_Lab grey ill) = 0 /\ thd3 (XYZ_to_Lab grey ill) = 0) /\
  (snd3 (XYZ_to_Luv grey ill) = 0 /\ thd3 (XYZ_to_Luv grey ill) = 0) /\
  XYZ_to_Lab (xy_to_XYZ ill) ill = (100, 0, 0) /\
  XYZ_to_Luv (xy_to_XYZ ill) ill = (100, 0, 0).
Proof.
  intros Hill Hk grey. subst grey.
  destruct (valid_illuminant_white ill Hill) as (Xr & Zr & Hw & HXr & HZr).
  assert (HLab : forall c, 0 < c ->
            XYZ_to_Lab (c * Xr, c * 1, c * Zr) ill = (L_of_yr c, 0, 0)).
  { intros c Hc. rewrite (XYZ_to_Lab_eq _ _ _ _ _ _ _ Hw), <- L_of_yr_Lab_f.
    replace (c * Xr / Xr) with c by (field; lra).
    replace (c * Zr / Zr) with c by (field; lra).
    replace (c * 1 / 1) with c by field.
    vec3_eq; ring. }
  assert (HLuv : forall c, 0 < c ->
            XYZ_to_Luv (c * Xr, c * 1, c * Zr) ill = (L_of_yr c, 0, 0)).
  { intros c Hc. rewrite (XYZ_to_Luv_eq _ _ _ _ _ _ _ Hw).
    replace (c * 1 / 1) with c by field.
    vec3_eq; [reflexivity | field; repeat split; nra | field; repeat split; nra]. }
  rewrite Hw. unfold vscale.
  rewrite (HLab k Hk), (HLuv k Hk). cbn [snd3 thd3 fst snd].
  replace (Xr, 1, Zr) with (1 * Xr, 1 * 1, 1 * Zr) by (vec3_eq; ring).
  rewrite (HLab 1), (HLuv 1) by lra. rewrite L_of_yr_1. repeat split.
Qed.

Lemma neutral_axis_Lab_Luv_witness :
  let grey := vscale (1 / 5) (xy_to_XYZ (1 / 3, 1 / 3)) in
  (snd3 (XYZ_to_Lab grey (1 / 3, 1 / 3)) = 0 /\
   thd3 (XYZ_to_Lab grey (1 / 3, 1 / 3)) = 0) /\
  (snd3 (XYZ_to_Luv grey (1 / 3, 1 / 3)) = 0 /\
   thd3 (XYZ_to_Luv grey (1 / 3, 1 / 3)) = 0) /\
  XYZ_to_Lab (xy_to_XYZ (1 / 3, 1 / 3)) (1 / 3, 1 / 3) = (100, 0, 0) /\
  XYZ_to_Luv (xy_to_XYZ (1 / 3, 1 / 3)) (1 / 3, 1 / 3) = (100, 0, 0).
Proof.
  apply neutral_axis_Lab_Luv; [exact valid_illuminant_third | lra].
Defined.

(** X13. The neutral axis of CIE 1964 U*V*W*.  For a valid illuminant, a
    stimulus that is a positive multiple k of the white point has
    U = V = 0 in [XYZ_to_UVW], and W = 25 k^(1/3) - 17. *)
Theorem neutral_axis_UVW (k : R) (ill : chromaticity) :
  valid_illuminant ill -> 0 < k ->
  XYZ_to_UVW (vscale k (xy_to_XYZ ill)) ill = (0, 0, 25 * Rpower k (1 / 3) - 17).
Proof.
  intros Hill Hk.
  destruct (valid_illuminant_white ill Hill) as (Xr & Zr & Hw & HXr & HZr).
  unfold XYZ_to_UVW. rewrite Hw. unfold vscale.
  rewrite XYZ_to_xyY_nonzero by (intros (_ & H & _); lra).
  rewrite !UCS_to_uv_of_XYZ_eq by nra.
  cbv beta iota zeta. replace (k * 1) with k by ring.
  rewrite fpow_pos by exact Hk.
  assert (HD : Xr + 15 * 1 + 3 * Zr <> 0) by lra.
  assert (HkD : k * Xr + 15 * k + 3 * (k * Zr) <> 0) by nra.
  vec3_eq; try reflexivity.
  - replace (4 * (k * Xr) / (k * Xr + 15 * k + 3 * (k * Zr)))
      with (4 * Xr / (Xr + 15 * 1 + 3 * Zr)) by (field; divisors_nonzero).
    ring.
  - replace (6 * k / (k * Xr + 15 * k + 3 * (k * Zr)))
      with (6 * 1 / (Xr + 15 * 1 + 3 * Zr)) by (field; divisors_nonzero).
    ring.
Qed.

Lemma neutral_axis_UVW_witness :
  XYZ_to_UVW (vscale 8 (xy_to_XYZ (1 / 3, 1 / 3))) (1 / 3, 1 / 3)
  = (0, 0, 25 * Rpower 8 (1 / 3) - 17).
Proof.
  apply neutral_axis_UVW; [exact valid_illuminant_third | lra].
Defined.

(** ** Polar forms: round trips *)

(** X14. Cartesian to polar and back is the identity on every vector:
    [LCHuv_to_Luv] undoes [Luv_to_LCHuv] and [LCHab_to_Lab] undoes
    [Lab_to_LCHab], the wrapped hue included. *)
Theorem cartesian_polar_cartesian (v : vec3) :
  LCHuv_to_Luv (Luv_to_LCHuv v) = v /\ LCHab_to_Lab (Lab_to_LCHab v) = v.
Proof. destruct v as [[L a] b]. apply polar_inverse_forward. Qed.

Lemma tan_polar (r t : R) :
  0 < r -> cos t <> 0 -> r * sin t / (r * cos t) = tan t.
Proof. intros Hr Hc. unfold tan. field. split; [exact Hc | lra]. Qed.

(** [atan2] recovers the angle of a point given in polar form, for a
    positive radius and an angle in (-PI, PI]. *)
Lemma atan2_of_polar (r t : R) :
  0 < r -> - PI < t <= PI -> atan2 (r * sin t) (r * cos t) = t.
Proof.
  intros Hr [Hlo Hhi]. pose proof PI_RGT_0 as Hpi. unfold atan2.
  destruct (Rlt_le_dec t (- (PI / 2))) as [H1 | H1].
  - (* third quadrant: t = s - PI with 0 < s < PI/2 *)
    set (s := t + PI).
    assert (Hs : - (PI / 2) < s < PI / 2) by (unfold s; lra).
    assert (Hcs : 0 < cos s) by (apply cos_gt_0; lra).
    assert (Hss : 0 < sin s) by (apply sin_gt_0; unfold s; lra).
    assert (Hsin : sin t = - sin s) by (unfold s; rewrite neg_sin; ring).
    assert (Hcos : cos t = - cos s) by (unfold s; rewrite neg_cos; ring).
    rewrite Hsin, Hcos.
    destruct (Rlt_dec 0 (r * - cos s)) as [H | _]; [nra|].
    destruct (Rlt_dec (r * - cos s) 0) as [_ | H]; [|nra].
    destruct (Rle_dec 0 (r * - sin s)) as [H | _]; [nra|].
    replace (r * - sin s / (r * - cos s)) with (tan s)
      by (unfold tan; field; split; lra).
    rewrite atan_tan by exact Hs. unfold s. ring.
  - destruct (Rle_lt_or_eq_dec _ _ H1) as [H2 | H2].
    + destruct (Rlt_le_dec t (PI / 2)) as [H3 | H3].
      * (* right half plane *)
        assert (Hc : 0 < cos t) by (apply cos_gt_0; lra).
        destruct (Rlt_dec 0 (r * cos t)) as [_ | H]; [|nra].
        rewrite tan_polar by lra. apply atan_tan. lra.
      * destruct (Rle_lt_or_eq_dec _ _ H3) as [H4 | H4].
        -- (* second quadrant: t = s + PI with -PI/2 < s <= 0 *)
           set (s := t - PI).
           assert (Hs : - (PI / 2) < s < PI / 2) by (unfold s; lra).
           assert (Hcs : 0 < cos s) by (apply cos_gt_0; lra).
           assert (Hss : sin s <= 0).
           { destruct (Req_dec s 0) as [-> | Hne]; [rewrite sin_0; lra|].
             left. apply sin_lt_0_var; unfold s in *; lra. }
           assert (Ht : t = s + PI) by (unfold s; ring).
           rewrite Ht, neg_sin, neg_cos.
           destruct (Rlt_dec 0 (r * - cos s)) as [H | _]; [nra|].
           destruct (Rlt_dec (r * - cos s) 0) as [_ | H]; [|nra].
           destruct (Rle_dec 0 (r * - sin s)) as [_ | H]; [|nra].
           replace (r * - sin s / (r * - cos s)) with (tan s)
             by (unfold tan; field; split; lra).
           rewrite atan_tan by exact Hs. ring.
        -- (* t = PI/2 *)
           rewrite <- H4, cos_PI2, sin_PI2, Rmult_0_r, Rmult_1_r.
           destruct (Rlt_dec 0 0) as [H | _]; [lra|].
           destruct (Rlt_dec 0 r) as [_ | H]; [reflexivity | contradiction].
    + (* t = -PI/2 *)
      rewrite <- H2, cos_neg, sin_neg, cos_PI2, sin_PI2, Rmult_0_r.
      destruct (Rlt_dec 0 0) as [H | _]; [lra|].
      destruct (Rlt_dec 0 (r * - (1))) as [H | _]; [lra|].
      destruct (Rlt_dec (r * - (1)) 0) as [_ | H]; [reflexivity | lra].
Qed.

Lemma chroma_of_polar (C t : R) :
  0 <= C -> sqrt ((C * cos t) ^ 2 + (C * sin t) ^ 2) = C.
Proof.
  intros HC. pose proof (sin2_cos2 t) as H. unfold Rsqr in H.
  replace ((C * cos t) ^ 2 + (C * sin t) ^ 2)
    with (C * C * (sin t * sin t + cos t * cos t)) by ring.
  rewrite H, Rmult_1_r. apply sqrt_square; exact HC.
Qed.

(** The hue computed from a point of positive chroma C and hue H in
    [0, 360) is H again. *)
Lemma hue_of_polar (C H : R) :
  0 < C -> 0 <= H < 360 ->
  let h := 180 * atan2 (C * sin (radians H)) (C * cos (radians H)) / PI in
  (if Rlt_dec h 0 then h + 360 else h) = H.
Proof.
  intros HC [H0 H360] h. subst h. pose proof PI_RGT_0 as Hpi. unfold radians.
  destruct (Rle_lt_dec H 180) as [Hle | Hgt].
  - rewrite atan2_of_polar.
    + replace (180 * (H * PI / 180) / PI) with H by (field; lra).
      destruct (Rlt_dec H 0); [lra | reflexivity].
    + exact HC.
    + split.
      * apply Rlt_le_trans with 0; [lra|].
        apply Rmult_le_pos; [apply Rmult_le_pos|]; lra.
      * replace PI with (180 * PI / 180) at 2 by (field; lra).
        apply Rmult_le_compat_r; [lra|].
        apply Rmult_le_compat_r; lra.
  - set (t := H * PI / 180 - 2 * PI).
    assert (Ht : H * PI / 180 = t + 2 * PI) by (unfold t; ring).
    assert (Hq : H * PI / 180 = H / 180 * PI) by (field; lra).
    assert (Hb : 1 < H / 180 < 2) by lra.
    rewrite Ht, cos_2PI_shift, sin_2PI_shift, atan2_of_polar.
    + replace (180 * t / PI) with (H - 360) by (unfold t; field; lra).
      destruct (Rlt_dec (H - 360) 0); [ring | lra].
    + exact HC.
    + unfold t. rewrite Hq. split; nra.
Qed.

(** X15. Polar to Cartesian and back is the identity on the canonical
    polar domain: for positive chroma C and hue H in [0, 360),
    [Luv_to_LCHuv] undoes [LCHuv_to_Luv] and [Lab_to_LCHab] undoes
    [LCHab_to_Lab]. *)
Theorem polar_cartesian_polar (L C H : R) :
  0 < C -> 0 <= H < 360 ->
  Luv_to_LCHuv (LCHuv_to_Luv (L, C, H)) = (L, C, H) /\
  Lab_to_LCHab (LCHab_to_Lab (L, C, H)) = (L, C, H).
Proof.
  intros HC HH. unfold Luv_to_LCHuv, LCHuv_to_Luv, Lab_to_LCHab, LCHab_to_Lab.
  pose proof (hue_of_polar C H HC HH) as Hh. cbv zeta in Hh.
  rewrite Hh, chroma_of_polar by lra. split; reflexivity.
Qed.

Lemma polar_cartesian_polar_witness :
  Luv_to_LCHuv (LCHuv_to_Luv (50, 10, 225)) = (50, 10, 225) /\
  Lab_to_LCHab (LCHab_to_Lab (50, 10, 225)) = (50, 10, 225).
Proof. apply polar_cartesian_polar; lra. Defined.

(** ** RGB pipelines: the other round trips *)

Lemma mvmul_linear (M : mat3) (a b : R) (v w : vec3) :
  mvmul M (vadd (vscale a v) (vscale b w))
  = vadd (vscale a (mvmul M v)) (vscale b (mvmul M w)).
Proof.
  destruct M as [[[[m00 m01] m02] [[m10 m11] m12]] [[m20 m21] m22]].
  destruct v as [[x y] z]. destruct w as [[x' y'] z'].
  unfold mvmul, vadd, vscale, dot. vec3_eq; ring.
Qed.

Lemma mvmul_zero (M : mat3) : mvmul M (0, 0, 0) = (0, 0, 0).
Proof.
  destruct M as [[[[m00 m01] m02] [[m10 m11] m12]] [[m20 m21] m22]].
  unfold mvmul, dot. vec3_eq; ring.
Qed.

(** Both pipelines, once the engine has answered. *)
Lemma XYZ_to_RGB_eq (get_cat : vec3 -> vec3 -> string -> option mat3)
    (V : vec3) (illuminant_XYZ illuminant_RGB : chromaticity)
    (method : string) (from_XYZ M : mat3) (tf : option (R -> R)) :
  get_cat (xy_to_XYZ illuminant_XYZ) (xy_to_XYZ illuminant_RGB) method = Some M ->
  XYZ_to_RGB get_cat V illuminant_XYZ illuminant_RGB method from_XYZ tf
  = Some (apply_transfer tf (mvmul from_XYZ (mvmul M V))).
Proof. intros H. unfold XYZ_to_RGB. rewrite H. reflexivity. Qed.

Lemma RGB_to_XYZ_eq (get_cat : vec3 -> vec3 -> string -> option mat3)
    (RGB : vec3) (illuminant_RGB illuminant_XYZ : chromaticity)
    (method : string) (to_XYZ M' : mat3) (itf : option (R -> R)) :
  get_cat (xy_to_XYZ illuminant_RGB) (xy_to_XYZ illuminant_XYZ) method = Some M' ->
  RGB_to_XYZ get_cat RGB illuminant_RGB illuminant_XYZ method to_XYZ itf
  = Some (mvmul M' (mvmul to_XYZ (apply_transfer itf RGB))).
Proof. intros H. unfold RGB_to_XYZ. rewrite H. reflexivity. Qed.

(** X17. The RGB round trip in the other direction: when the engine's
    matrices for the two directions are mutually inverse (M M' = I),
    [from_XYZ] inverts [to_XYZ] and the transfer function undoes the
    inverse transfer function, [XYZ_to_RGB] applied to the result of
    [RGB_to_XYZ] gives the RGB vector back. *)
Theorem RGB_XYZ_RGB_roundtrip
    (get_cat : vec3 -> vec3 -> string -> option mat3)
    (RGB : vec3) (illuminant_RGB illuminant_XYZ : chromaticity)
    (method : string) (from_XYZ to_XYZ : mat3)
    (tf itf : option (R -> R)) (M M' : mat3) :
  get_cat (xy_to_XYZ illuminant_XYZ) (xy_to_XYZ illuminant_RGB) method = Some M ->
  get_cat (xy_to_XYZ illuminant_RGB) (xy_to_XYZ illuminant_XYZ) method = Some M' ->
  mmul M M' = I3 ->
  mmul from_XYZ to_XYZ = I3 ->
  transfer_inverse itf tf ->
  exists XYZ,
    RGB_to_XYZ get_cat RGB illuminant_RGB illuminant_XYZ method to_XYZ itf = Some XYZ /\
    XYZ_to_RGB get_cat XYZ illuminant_XYZ illuminant_RGB method from_XYZ tf = Some RGB.
Proof.
  intros HM HM' Hcat Hnpm Htf.
  exists (mvmul M' (mvmul to_XYZ (apply_transfer itf RGB))).
  rewrite (RGB_to_XYZ_eq _ _ _ _ _ _ _ _ HM'), (XYZ_to_RGB_eq _ _ _ _ _ _ _ _ HM).
  split; [reflexivity|].
  rewrite (mvmul_mmul M M'), Hcat, mvmul_I3.
  rewrite (mvmul_mmul from_XYZ to_XYZ), Hnpm, mvmul_I3, Htf. reflexivity.
Qed.

Lemma XYZ_scaling_quarter_half :
  XYZ_scaling (xy_to_XYZ (1 / 4, 1 / 4)) (xy_to_XYZ (1 / 2, 1 / 4)) "Bradford"
  = Some ((2, 0, 0), (0, 1, 0), (0, 0, 1 / 2)) /\
  XYZ_scaling (xy_to_XYZ (1 / 2, 1 / 4)) (xy_to_XYZ (1 / 4, 1 / 4)) "Bradford"
  = Some ((1 / 2, 0, 0), (0, 1, 0), (0, 0, 2)).
Proof.
  rewrite !xy_to_XYZ_nonzero by lra. unfold XYZ_scaling.
  split; apply f_equal; mat3_eq; try reflexivity; field.
Qed.

Lemma NPM_example_inverse :
  mmul NPM_example NPM_example_inv = I3 /\ mmul NPM_example_inv NPM_example = I3.
Proof.
  unfold mmul, I3, NPM_example, NPM_example_inv, col0, col1, col2, dot.
  split; mat3_eq; field.
Qed.

Lemma scaling_matrices_inverse :
  mmul ((2, 0, 0), (0, 1, 0), (0, 0, 1 / 2)) ((1 / 2, 0, 0), (0, 1, 0), (0, 0, 2)) = I3 /\
  mmul ((1 / 2, 0, 0), (0, 1, 0), (0, 0, 2)) ((2, 0, 0), (0, 1, 0), (0, 0, 1 / 2)) = I3.
Proof.
  unfold mmul, I3, col0, col1, col2, dot. split; mat3_eq; field.
Qed.

Lemma RGB_XYZ_RGB_roundtrip_witness :
  exists XYZ,
    RGB_to_XYZ XYZ_scaling (3, 5, 9) (1 / 2, 1 / 4) (1 / 4, 1 / 4) "Bradford"
      NPM_example_inv (Some (fun x => (x - 1) / 2)) = Some XYZ /\
    XYZ_to_RGB XYZ_scaling XYZ (1 / 4, 1 / 4) (1 / 2, 1 / 4) "Bradford"
      NPM_example (Some (fun x => 2 * x + 1)) = Some (3, 5, 9).
Proof.
  destruct XYZ_scaling_quarter_half as [H1 H2].
  apply (RGB_XYZ_RGB_roundtrip XYZ_scaling (3, 5, 9) (1 / 2, 1 / 4) (1 / 4, 1 / 4)
           "Bradford" NPM_example NPM_example_inv _ _ _ _ H1 H2).
  - apply scaling_matrices_inverse.
  - apply NPM_example_inverse.
  - apply transfer_inverse_some. intros x. field.
Defined.

Lemma XYZ_to_xyY_of_xyY_to_XYZ (x y Y : R) (ill : chromaticity) :
  y <> 0 -> Y <> 0 -> XYZ_to_xyY (xyY_to_XYZ (x, y, Y)) ill = (x, y, Y).
Proof.
  intros Hy HY. rewrite (xyY_to_XYZ_nonzero _ _ _ Hy).
  rewrite XYZ_to_xyY_nonzero by (intros (_ & H & _); contradiction).
  assert (HS : x * Y + Y * y + (1 - x - y) * Y <> 0).
  { replace (x * Y + Y * y + (1 - x - y) * Y) with Y by ring. exact HY. }
  vec3_eq; try reflexivity; field; split; assumption.
Qed.

(** X18. The round trip through RGB at the xyY level: under the
    hypotheses of the XYZ round trip (mutually inverse adaptation
    matrices, [to_XYZ] inverting [from_XYZ], inverse transfer function
    undoing the transfer function), [RGB_to_xyY] applied to the result of
    [xyY_to_RGB] gives back every xyY vector with y <> 0 and Y <> 0,
    whatever the default illuminant of [XYZ_to_xyY] is. *)
Theorem xyY_RGB_xyY_roundtrip
    (get_cat : vec3 -> vec3 -> string -> option mat3) (D50 : chromaticity)
    (x y Y : R) (illuminant_xyY illuminant_RGB : chromaticity)
    (method : string) (from_XYZ to_XYZ : mat3)
    (tf itf : option (R -> R)) (M M' : mat3) :
  get_cat (xy_to_XYZ illuminant_xyY) (xy_to_XYZ illuminant_RGB) method = Some M ->
  get_cat (xy_to_XYZ illuminant_RGB) (xy_to_XYZ illuminant_xyY) method = Some M' ->
  mmul M' M = I3 ->
  mmul to_XYZ from_XYZ = I3 ->
  transfer_inverse tf itf ->
  y <> 0 -> Y <> 0 ->
  exists RGB,
    xyY_to_RGB get_cat (x, y, Y) illuminant_xyY illuminant_RGB method from_XYZ tf
    = Some RGB /\
    RGB_to_xyY get_cat D50 RGB illuminant_RGB illuminant_xyY method to_XYZ itf
    = Some (x, y, Y).
Proof.
  intros HM HM' Hcat Hnpm Htf Hy HY.
  exists (apply_transfer tf (mvmul from_XYZ (mvmul M (xyY_to_XYZ (x, y, Y))))).
  unfold xyY_to_RGB, RGB_to_xyY.
  rewrite (XYZ_to_RGB_eq _ _ _ _ _ _ _ _ HM), (RGB_to_XYZ_eq _ _ _ _ _ _ _ _ HM').
  split; [reflexivity|].
  rewrite Htf, (mvmul_mmul to_XYZ from_XYZ), Hnpm, mvmul_I3.
  rewrite (mvmul_mmul M' M), Hcat, mvmul_I3.
  rewrite XYZ_to_xyY_of_xyY_to_XYZ by assumption. reflexivity.
Qed.

Lemma xyY_RGB_xyY_roundtrip_witness :
  exists RGB,
    xyY_to_RGB XYZ_scaling (1 / 4, 1 / 4, 10) (1 / 4, 1 / 4) (1 / 2, 1 / 4)
      "Bradford" NPM_example (Some (fun x => 2 * x + 1)) = Some RGB /\
    RGB_to_xyY XYZ_scaling (1 / 3, 1 / 3) RGB (1 / 2, 1 / 4) (1 / 4, 1 / 4)
      "Bradford" NPM_example_inv (Some (fun x => (x - 1) / 2))
    = Some (1 / 4, 1 / 4, 10).
Proof.
  destruct XYZ_scaling_quarter_half as [H1 H2].
  apply (xyY_RGB_xyY_roundtrip XYZ_scaling (1 / 3, 1 / 3) (1 / 4) (1 / 4) 10
           (1 / 4, 1 / 4) (1 / 2, 1 / 4) "Bradford" NPM_example NPM_example_inv
           _ _ _ _ H1 H2).
  - apply scaling_matrices_inverse.
  - apply NPM_example_inverse.
  - apply transfer_inverse_some. intros x. field.
  - lra.
  - lra.
Defined.

(** X19. Black has the default illuminant's chromaticity.  [RGB_to_xyY]
    calls [XYZ_to_xyY] without an illuminant, so for the RGB vector
    (0, 0, 0) and no inverse transfer function it returns the chromaticity
    of the default illuminant with luminance 0, whatever [illuminant_xyY]
    and the matrices are, as soon as the engine returns a matrix. *)
Theorem RGB_to_xyY_black
    (get_cat : vec3 -> vec3 -> string -> option mat3) (D50 : chromaticity)
    (illuminant_RGB illuminant_xyY : chromaticity)
    (method : string) (to_XYZ M' : mat3) :
  get_cat (xy_to_XYZ illuminant_RGB) (xy_to_XYZ illuminant_xyY) method = Some M' ->
  RGB_to_xyY get_cat D50 (0, 0, 0) illuminant_RGB illuminant_xyY method to_XYZ None
  = Some (fst D50, snd D50, 0).
Proof.
  intros HM'. unfold RGB_to_xyY.
  rewrite (RGB_to_XYZ_eq _ _ _ _ _ _ _ _ HM'). cbn [apply_transfer].
  rewrite !mvmul_zero, XYZ_to_xyY_zero. reflexivity.
Qed.

Lemma RGB_to_xyY_black_witness :
  RGB_to_xyY XYZ_scaling (1 / 3, 1 / 3) (0, 0, 0) (1 / 2, 1 / 4) (1 / 4, 1 / 4)
    "Bradford" NPM_example_inv None
  = Some (fst (1 / 3, 1 / 3), snd (1 / 3, 1 / 3), 0).
Proof.
  destruct XYZ_scaling_quarter_half as [_ H2].
  apply (RGB_to_xyY_black XYZ_scaling (1 / 3, 1 / 3) _ _ _ _ _ H2).
Defined.

(** X20. Without a transfer function [XYZ_to_RGB] is linear in the
    stimulus: the RGB vector of a V + b W is a times the RGB vector of V
    plus b times that of W (same illuminants, method and matrix). *)
Theorem XYZ_to_RGB_linear
    (get_cat : vec3 -> vec3 -> string -> option mat3)
    (a b : R) (V W r1 r2 : vec3) (illuminant_XYZ illuminant_RGB : chromaticity)
    (method : string) (from_XYZ : mat3) :
  XYZ_to_RGB get_cat V illuminant_XYZ illuminant_RGB method from_XYZ None = Some r1 ->
  XYZ_to_RGB get_cat W illuminant_XYZ illuminant_RGB method from_XYZ None = Some r2 ->
  XYZ_to_RGB get_cat (vadd (vscale a V) (vscale b W))
    illuminant_XYZ illuminant_RGB method from_XYZ None
  = Some (vadd (vscale a r1) (vscale b r2)).
Proof.
  unfold XYZ_to_RGB.
  destruct (get_cat (xy_to_XYZ illuminant_XYZ) (xy_to_XYZ illuminant_RGB) method)
    as [M|]; [|discriminate].
  cbn [apply_transfer]. intros H1 H2.
  injection H1 as <-. injection H2 as <-.
  rewrite !mvmul_linear. reflexivity.
Qed.

Lemma XYZ_to_RGB_linear_witness :
  XYZ_to_RGB XYZ_scaling (vadd (vscale 2 (1, 0, 0)) (vscale 3 (0, 1, 0)))
    (1 / 4, 1 / 4) (1 / 2, 1 / 4) "Bradford" NPM_example None
  = Some (vadd (vscale 2 (mvmul NPM_example (mvmul ((2, 0, 0), (0, 1, 0), (0, 0, 1 / 2)) (1, 0, 0))))
               (vscale 3 (mvmul NPM_example (mvmul ((2, 0, 0), (0, 1, 0), (0, 0, 1 / 2)) (0, 1, 0))))).
Proof.
  destruct XYZ_scaling_quarter_half as [H1 _].
  apply XYZ_to_RGB_linear; rewrite (XYZ_to_RGB_eq _ _ _ _ _ _ _ _ H1); reflexivity.
Defined.

(** X21. The matrix of the example script does in one product what the
    pipeline does in three: with the adaptation matrix the engine returns
    for the source and destination white points, multiplying an RGB
    vector by [XYZ_to_RGB_matrix * (cat * RGB_to_XYZ_matrix)] is
    [XYZ_to_RGB], without transfer function, applied to the vector's XYZ
    coordinates. *)
Theorem RGB_to_RGB_matrix_is_pipeline
    (get_cat : vec3 -> vec3 -> string -> option mat3)
    (RGB : vec3) (whitepoint_src whitepoint_dst : chromaticity)
    (method : string) (RGB_to_XYZ_matrix XYZ_to_RGB_matrix cat : mat3) :
  get_cat (xy_to_XYZ whitepoint_src) (xy_to_XYZ whitepoint_dst) method = Some cat ->
  XYZ_to_RGB get_cat (mvmul RGB_to_XYZ_matrix RGB) whitepoint_src whitepoint_dst
    method XYZ_to_RGB_matrix None
  = Some (mvmul (RGB_to_RGB_matrix XYZ_to_RGB_matrix cat RGB_to_XYZ_matrix) RGB).
Proof.
  intros H. rewrite (XYZ_to_RGB_eq _ _ _ _ _ _ _ _ H). cbn [apply_transfer].
  unfold RGB_to_RGB_matrix. rewrite <- !mvmul_mmul. reflexivity.
Qed.

Lemma RGB_to_RGB_matrix_is_pipeline_witness :
  XYZ_to_RGB XYZ_scaling (mvmul NPM_example_inv (3, 5, 9)) (1 / 4, 1 / 4) (1 / 2, 1 / 4)
    "Bradford" NPM_example None
  = Some (mvmul (RGB_to_RGB_matrix NPM_example ((2, 0, 0), (0, 1, 0), (0, 0, 1 / 2))
                   NPM_example_inv) (3, 5, 9)).
Proof.
  destruct XYZ_scaling_quarter_half as [H1 _].
  apply RGB_to_RGB_matrix_is_pipeline. exact H1.
Defined.

(** ** DCDM transfer functions: inverse, order and range *)

Lemma fpow_nonneg (x y : R) : 0 <= fpow x y.
Proof.
  unfold fpow. destruct (Rlt_dec 0 x); [left; apply Rpower_pos | lra].
Qed.

Lemma fpow_1 (y : R) : fpow 1 y = 1.
Proof.
  rewrite fpow_pos by lra. unfold Rpower. rewrite ln_1, Rmult_0_r. apply exp_0.
Qed.

Lemma fpow_increasing (a b c : R) :
  0 < c -> 0 <= a < b -> fpow a c < fpow b c.
Proof.
  intros Hc [[Ha | <-] Hab].
  - rewrite !fpow_pos by lra. apply Rlt_Rpower_l; [exact Hc | lra].
  - rewrite fpow_0, fpow_pos by exact Hab. apply Rpower_pos.
Qed.

Lemma fpow_DCDM_inverse' (w : R) : 0 <= w -> fpow (fpow w 2.6) (1 / 2.6) = w.
Proof.
  intros [Hw | <-].
  - rewrite (fpow_pos w) by exact Hw.
    rewrite fpow_pos by apply Rpower_pos.
    rewrite Rpower_mult. replace (2.6 * (1 / 2.6)) with 1 by lra.
    apply Rpower_1; exact Hw.
  - rewrite !fpow_0. reflexivity.
Qed.

(** X22. Encoding undoes decoding: for every signal v' >= 0,
    [oetf_DCDM (eotf_DCDM v')] is v', in float mode and in
    integer-code-value mode. *)
Theorem oetf_eotf_DCDM (v' : R) (int : bool) :
  0 <= v' -> oetf_DCDM (eotf_DCDM v' int) int = v'.
Proof.
  intros Hv. unfold eotf_DCDM, oetf_DCDM. destruct int.
  - assert (Hw : 0 <= v' / 4095) by (apply Rmult_le_pos; lra).
    replace (52.37 * fpow (v' / 4095) 2.6 / 52.37)
      with (fpow (v' / 4095) 2.6) by (field; lra).
    rewrite fpow_DCDM_inverse' by exact Hw. field.
  - replace (52.37 * fpow v' 2.6 / 52.37) with (fpow v' 2.6) by (field; lra).
    apply fpow_DCDM_inverse'; exact Hv.
Qed.

Lemma oetf_eotf_DCDM_witness :
  oetf_DCDM (eotf_DCDM 2048 true) true = 2048.
Proof. apply oetf_eotf_DCDM. lra. Defined.

Lemma DCDM_increasing_lemma (a b : R) (int : bool) :
  0 <= a < b ->
  oetf_DCDM a int < oetf_DCDM b int /\ eotf_DCDM a int < eotf_DCDM b int.
Proof.
  intros [Ha Hab]. unfold oetf_DCDM, eotf_DCDM.
  assert (Ho : fpow (a / 52.37) (1 / 2.6) < fpow (b / 52.37) (1 / 2.6)).
  { apply fpow_increasing; [lra|]. split.
    - apply Rmult_le_pos; lra.
    - apply Rmult_lt_compat_r; lra. }
  destruct int; split; try lra.
  - assert (He : fpow (a / 4095) 2.6 < fpow (b / 4095) 2.6).
    { apply fpow_increasing; [lra|]. split.
      - apply Rmult_le_pos; lra.
      - apply Rmult_lt_compat_r; lra. }
    lra.
  - assert (He : fpow a 2.6 < fpow b 2.6)
      by (apply fpow_increasing; [lra | split; assumption]).
    lra.
Qed.

(** X23. Both DCDM transfer functions are strictly increasing on the
    nonnegative values, in either mode: a larger luminance encodes to a
    larger signal and a larger signal decodes to a larger luminance. *)
Theorem DCDM_increasing (a b : R) (int : bool) :
  0 <= a < b ->
  oetf_DCDM a int < oetf_DCDM b int /\ eotf_DCDM a int < eotf_DCDM b int.
Proof. exact (DCDM_increasing_lemma a b int). Qed.

Lemma DCDM_increasing_witness :
  oetf_DCDM (1 / 10) false < oetf_DCDM (1 / 5) false /\
  eotf_DCDM (1 / 10) false < eotf_DCDM (1 / 5) false.
Proof. apply DCDM_increasing. lra. Defined.

Lemma oetf_DCDM_peak : oetf_DCDM 52.37 false = 1.
Proof.
  unfold oetf_DCDM. replace (52.37 / 52.37) with 1 by lra. apply fpow_1.
Qed.

Lemma eotf_DCDM_peak : eotf_DCDM 1 false = 52.37.
Proof. unfold eotf_DCDM. rewrite fpow_1. ring. Qed.

Lemma oetf_DCDM_0 (int : bool) : oetf_DCDM 0 int = 0.
Proof.
  unfold oetf_DCDM. replace (0 / 52.37) with 0 by lra. rewrite fpow_0.
  destruct int; ring.
Qed.

Lemma eotf_DCDM_0 (int : bool) : eotf_DCDM 0 int = 0.
Proof.
  unfold eotf_DCDM. replace (0 / 4095) with 0 by lra.
  destruct int; rewrite fpow_0; ring.
Qed.

(** X24. The legal ranges correspond, although nothing is clamped: a
    luminance in [0, 52.37] encodes to a signal in [0, 1], and to a code
    value in [0, 4095] in integer mode; a signal in [0, 1], or a code
    value in [0, 4095] in integer mode, decodes to a luminance in
    [0, 52.37]. *)
Theorem DCDM_legal_range (v : R) :
  (0 <= v <= 52.37 ->
     0 <= oetf_DCDM v false <= 1 /\ 0 <= oetf_DCDM v true <= 4095) /\
  (0 <= v <= 1 -> 0 <= eotf_DCDM v false <= 52.37) /\
  (0 <= v <= 4095 -> 0 <= eotf_DCDM v true <= 52.37).
Proof.
  split; [|split].
  - intros [H0 H1].
    assert (Hf : 0 <= oetf_DCDM v false <= 1).
    { split.
      - unfold oetf_DCDM. apply fpow_nonneg.
      - destruct H1 as [H1 | ->]; [|rewrite oetf_DCDM_peak; lra].
        rewrite <- oetf_DCDM_peak. left.
        apply (DCDM_increasing_lemma v 52.37 false); lra. }
    split; [exact Hf|].
    replace (oetf_DCDM v true) with (oetf_DCDM v false * 4095) by reflexivity.
    lra.
  - intros [H0 H1]. split.
    + unfold eotf_DCDM. pose proof (fpow_nonneg v 2.6). lra.
    + destruct H1 as [H1 | ->]; [|rewrite eotf_DCDM_peak; lra].
      rewrite <- eotf_DCDM_peak. left.
      apply (DCDM_increasing_lemma v 1 false); lra.
  - intros [H0 H1].
    replace (eotf_DCDM v true) with (eotf_DCDM (v / 4095) false) by reflexivity.
    assert (Hq : 0 <= v / 4095 <= 1) by lra.
    destruct Hq as [Hq0 Hq1]. split.
    + unfold eotf_DCDM. pose proof (fpow_nonneg (v / 4095) 2.6). lra.
    + destruct Hq1 as [Hq1 | ->]; [|rewrite eotf_DCDM_peak; lra].
      rewrite <- eotf_DCDM_peak. left.
      apply (DCDM_increasing_lemma (v / 4095) 1 false); lra.
Qed.

Lemma DCDM_legal_range_witness :
  0 <= oetf_DCDM 48 false <= 1 /\ 0 <= oetf_DCDM 48 true <= 4095.
Proof.
  destruct (DCDM_legal_range 48) as [H _]. apply H. lra.
Defined.

(** ** Opponent axes and hue under scaling *)

Lemma Lab_f_increasing (y1 y2 : R) : y1 < y2 -> Lab_f y1 < Lab_f y2.
Proof.
  intros H. apply L_of_yr_increasing in H. rewrite !L_of_yr_Lab_f in H. lra.
Qed.

(** X25. The opponent axes of Lab compare the white-relative ratios: for
    a valid illuminant, a is positive, zero or negative as X/Xr is above,
    equal to or below Y/Yr, and b is positive, zero or negative as Y/Yr is
    above, equal to or below Z/Zr, on both segments of the piecewise
    rule. *)
Theorem Lab_opponent_signs (X Y Z : R) (ill : chromaticity) :
  valid_illuminant ill ->
  let xr := X / fst3 (xy_to_XYZ ill) in
  let yr := Y / snd3 (xy_to_XYZ ill) in
  let zr := Z / thd3 (xy_to_XYZ ill) in
  let a := snd3 (XYZ_to_Lab (X, Y, Z) ill) in
  let b := thd3 (XYZ_to_Lab (X, Y, Z) ill) in
  (yr < xr -> 0 < a) /\ (xr = yr -> a = 0) /\ (xr < yr -> a < 0) /\
  (zr < yr -> 0 < b) /\ (yr = zr -> b = 0) /\ (yr < zr -> b < 0).
Proof.
  intros Hill xr yr zr a b. subst xr yr zr a b.
  destruct (valid_illuminant_white ill Hill) as (Xr & Zr & Hw & HXr & HZr).
  rewrite (XYZ_to_Lab_eq _ _ _ _ _ _ _ Hw), Hw. cbn [fst3 snd3 thd3 fst snd].
  repeat split; intros H;
    try (apply Lab_f_increasing in H; lra);
    rewrite H; ring.
Qed.

Lemma Lab_opponent_signs_witness :
  0 < snd3 (XYZ_to_Lab (2, 1 / 2, 1) (1 / 3, 1 / 3)).
Proof.
  destruct (Lab_opponent_signs 2 (1 / 2) 1 (1 / 3, 1 / 3) valid_illuminant_third)
    as (H & _).
  apply H. rewrite xy_to_XYZ_nonzero by lra. cbn [fst3 snd3 fst snd].
  replace (1 / 3 / (1 / 3)) with 1 by field. lra.
Defined.

Lemma atan2_scale (k y x : R) : 0 < k -> atan2 (k * y) (k * x) = atan2 y x.
Proof.
  intros Hk. unfold atan2.
  assert (Hq : x <> 0 -> k * y / (k * x) = y / x) by (intros Hx; field; lra).
  destruct (Rlt_dec 0 x) as [Hx | Hx].
  - destruct (Rlt_dec 0 (k * x)) as [_ | H]; [|nra]. rewrite Hq by lra. reflexivity.
  - destruct (Rlt_dec 0 (k * x)) as [H | _]; [nra|].
    destruct (Rlt_dec x 0) as [Hx' | Hx'].
    + destruct (Rlt_dec (k * x) 0) as [_ | H]; [|nra]. rewrite Hq by lra.
      destruct (Rle_dec 0 y) as [Hy | Hy].
      * destruct (Rle_dec 0 (k * y)) as [_ | H]; [reflexivity | nra].
      * destruct (Rle_dec 0 (k * y)) as [H | _]; [nra | reflexivity].
    + destruct (Rlt_dec (k * x) 0) as [H | _]; [nra|].
      destruct (Rlt_dec 0 y) as [Hy | Hy].
      * destruct (Rlt_dec 0 (k * y)) as [_ | H]; [reflexivity | nra].
      * destruct (Rlt_dec 0 (k * y)) as [H | _]; [nra|].
        destruct (Rlt_dec y 0) as [Hy' | Hy'].
        -- destruct (Rlt_dec (k * y) 0) as [_ | H]; [reflexivity | nra].
        -- destruct (Rlt_dec (k * y) 0) as [H | _]; [nra | reflexivity].
Qed.

(** X26. Scaling the two chromatic axes by k > 0 keeps the hue and scales
    the chroma by k, in [Luv_to_LCHuv] and in [Lab_to_LCHab]: saturation
    changes do not move the hue angle. *)
Theorem hue_scale_invariant (k L a b : R) :
  0 < k ->
  Luv_to_LCHuv (L, k * a, k * b)
  = (L, k * snd3 (Luv_to_LCHuv (L, a, b)), thd3 (Luv_to_LCHuv (L, a, b))) /\
  Lab_to_LCHab (L, k * a, k * b)
  = (L, k * snd3 (Lab_to_LCHab (L, a, b)), thd3 (Lab_to_LCHab (L, a, b))).
Proof.
  intros Hk. unfold Luv_to_LCHuv, Lab_to_LCHab. cbn [snd3 thd3 fst snd].
  rewrite atan2_scale by exact Hk.
  replace ((k * a) ^ 2 + (k * b) ^ 2) with (k * k * (a ^ 2 + b ^ 2)) by ring.
  rewrite sqrt_mult_alt by nra. rewrite sqrt_square by lra.
  split; reflexivity.
Qed.

Lemma hue_scale_invariant_witness :
  Luv_to_LCHuv (50, 2 * 3, 2 * 4)
  = (50, 2 * snd3 (Luv_to_LCHuv (50, 3, 4)), thd3 (Luv_to_LCHuv (50, 3, 4))).
Proof.
  destruct (hue_scale_invariant 2 50 3 4) as [H _]; [lra | exact H].
Defined.
